(** * SequenceTask: frame-range tasks, chunked export and per-frame execution

    A shallow embedding of [wolfkrow/core/tasks/sequence_task.py].  Python
    integers are unbounded, hence [Z]; strings are [string]; exceptions are
    values of [exn]; the methods of the class are computations in a small
    state-and-exception monad over the instance and its environment.  *)

From Stdlib Require Import ZArith List String Ascii Lia Bool DecimalString Sorted.
From Stdlib Require DecimalPos DecimalZ.
Import ListNotations.
Local Open Scope string_scope.
Local Open Scope Z_scope.

(** ** Python values, [str] and [repr]

    As Python 3 prints them. *)

Module Py.

(** The values an attribute of a task may hold.  A set is listed in its
    iteration order, a dict as its items in insertion order. *)
#[warnings="-register-all"]
Inductive value : Type :=
| VNone
| VBool (b : bool)
| VInt (z : Z)
| VStr (s : string)
| VList (items : list value)
| VSet (items : list value)
| VDict (items : list (value * value)).

(** What may be raised.  Instances of [Exception]: the ones this module
    raises or that Python raises on its behalf, and [Exception] for
    whatever else a collaborator raises.  And the two that derive from
    [BaseException] only, which [except Exception] lets through:
    [SystemExit], as [sys.exit] raises it, and [KeyboardInterrupt]. *)
Inductive exn : Type :=
| TaskValidationException (msg : string)
| KeyError (key : string)
| IndexError (msg : string)
| ValueError (msg : string)
| Exception (msg : string)
| SystemExit (code : Z)
| KeyboardInterrupt.

(** [isinstance(e, Exception)] *)
Definition is_exception (e : exn) : bool :=
  match e with
  | SystemExit _ | KeyboardInterrupt => false
  | _ => true
  end.

Definition result (A : Type) : Type := (exn + A)%type.

Definition ok {A} (a : A) : result A := inr a.
Definition throw {A} (e : exn) : result A := inl e.
Definition and_then {A B} (r : result A) (k : A -> result B) : result B :=
  match r with
  | inl e => inl e
  | inr a => k a
  end.

Definition squote : ascii := "'"%char.
Definition dquote : ascii := Eval cbv in ascii_of_nat 34.
Definition backslash : ascii := "\"%char.
Definition tab : ascii := Eval cbv in ascii_of_nat 9.
Definition newline : ascii := Eval cbv in ascii_of_nat 10.
Definition creturn : ascii := Eval cbv in ascii_of_nat 13.

(** [str(z)] and [repr(z)] of an int: its decimal numeral. *)
Definition int_str (z : Z) : string := NilZero.string_of_int (Z.to_int z).

Definition hex_digit (n : nat) : ascii :=
  nth n (list_ascii_of_string "0123456789abcdef") "0"%char.

Definition hex_escape (c : ascii) : string :=
  let n := nat_of_ascii c in
  String backslash (String "x" (String (hex_digit (n / 16)) (String (hex_digit (n mod 16)) ""))).

(** [str.isprintable] on the code points below 256. *)
Definition printable (c : ascii) : bool :=
  let n := nat_of_ascii c in
  ((32 <=? n) && (n <=? 126) || (161 <=? n) && negb (n =? 173))%nat.

Definition escape_char (quote c : ascii) : string :=
  if Ascii.eqb c backslash then String backslash (String backslash "")
  else if Ascii.eqb c quote then String backslash (String quote "")
  else if Ascii.eqb c tab then String backslash "t"
  else if Ascii.eqb c newline then String backslash "n"
  else if Ascii.eqb c creturn then String backslash "r"
  else if printable c then String c ""
  else hex_escape c.

Fixpoint escape (quote : ascii) (s : string) : string :=
  match s with
  | EmptyString => ""
  | String c rest => escape_char quote c ++ escape quote rest
  end.

Fixpoint contains_char (c : ascii) (s : string) : bool :=
  match s with
  | EmptyString => false
  | String d rest => Ascii.eqb c d || contains_char c rest
  end.

(** [repr] of a [str]: single quotes, unless the text has a single quote
    and no double quote. *)
Definition str_repr (s : string) : string :=
  let quote :=
    if contains_char squote s && negb (contains_char dquote s)
    then dquote else squote in
  String quote (escape quote s ++ String quote "").

Fixpoint repr (v : value) : string :=
  match v with
  | VNone => "None"
  | VBool true => "True"
  | VBool false => "False"
  | VInt z => int_str z
  | VStr s => str_repr s
  | VList items => "[" ++ String.concat ", " (map repr items) ++ "]"
  | VSet [] => "set()"
  | VSet items => "{" ++ String.concat ", " (map repr items) ++ "}"
  | VDict items =>
      "{" ++ String.concat ", "
               (map (fun kv => match kv with
                               | (k, x) => repr k ++ ": " ++ repr x
                               end) items) ++ "}"
  end.

(** [str(v)], which is what [str.format] substitutes for a field. *)
Definition str (v : value) : string :=
  match v with
  | VStr s => s
  | _ => repr v
  end.

(** [type(v) in [list, set, dict]] *)
Definition is_container (v : value) : bool :=
  match v with
  | VList _ | VSet _ | VDict _ => true
  | _ => false
  end.

Definition is_none (v : value) : bool :=
  match v with
  | VNone => true
  | _ => false
  end.

(** *** [str.format]

    Replacement fields are [{}] (the next positional argument), [{3}] (a
    positional argument by index) and [{name}] (a keyword argument);
    doubled braces are literal braces.  Conversions and format
    specifications are not used by this module and not modelled. *)

Inductive scan : Type :=
| Text
| Field (name : string)
| Closing.

Definition is_digit (c : ascii) : bool :=
  let n := nat_of_ascii c in ((48 <=? n) && (n <=? 57))%nat.

Fixpoint all_digits (s : string) : bool :=
  match s with
  | EmptyString => true
  | String c rest => is_digit c && all_digits rest
  end.

Fixpoint index_of_digits (s : string) (acc : nat) : nat :=
  match s with
  | EmptyString => acc
  | String c rest => index_of_digits rest (10 * acc + (nat_of_ascii c - 48))%nat
  end.

(** [s] with the character [c] added at its end. *)
Fixpoint push (s : string) (c : ascii) : string :=
  match s with
  | EmptyString => String c ""
  | String d rest => String d (push rest c)
  end.

Fixpoint keyword (name : string) (kwargs : list (string * value)) : result value :=
  match kwargs with
  | [] => throw (KeyError name)
  | (k, v) :: rest => if String.eqb k name then ok v else keyword name rest
  end.

Definition positional (i : nat) (args : list value) : result value :=
  match nth_error args i with
  | Some v => ok v
  | None => throw (IndexError "Replacement index out of range for positional args tuple")
  end.

(** The value of the field [name]; [auto] counts the [{}] fields seen. *)
Definition field_value (name : string) (auto : nat)
    (args : list value) (kwargs : list (string * value)) : result value * nat :=
  match name with
  | EmptyString => (positional auto args, S auto)
  | _ => if all_digits name
         then (positional (index_of_digits name 0) args, auto)
         else (keyword name kwargs, auto)
  end.

Fixpoint format_scan (template : string) (st : scan) (auto : nat)
    (args : list value) (kwargs : list (string * value)) : result string :=
  match template with
  | EmptyString =>
      match st with
      | Text => ok ""
      | Field _ => throw (ValueError "expected '}' before end of string")
      | Closing => throw (ValueError "Single '}' encountered in format string")
      end
  | String c rest =>
      match st with
      | Text =>
          if Ascii.eqb c "{" then format_scan rest (Field "") auto args kwargs
          else if Ascii.eqb c "}" then format_scan rest Closing auto args kwargs
          else and_then (format_scan rest Text auto args kwargs)
                        (fun tail => ok (String c tail))
      | Closing =>
          if Ascii.eqb c "}"
          then and_then (format_scan rest Text auto args kwargs)
                        (fun tail => ok (String "}" tail))
          else throw (ValueError "Single '}' encountered in format string")
      | Field name =>
          if Ascii.eqb c "}" then
            let (found, auto') := field_value name auto args kwargs in
            and_then found (fun v =>
            and_then (format_scan rest Text auto' args kwargs) (fun tail =>
            ok (str v ++ tail)))
          else if Ascii.eqb c "{" && String.eqb name "" then
            and_then (format_scan rest Text auto args kwargs)
                     (fun tail => ok (String "{" tail))
          else format_scan rest (Field (push name c)) auto args kwargs
      end
  end.

(** [template.format] applied to positional [args] and keyword [kwargs] *)
Definition format (template : string)
    (args : list value) (kwargs : list (string * value)) : result string :=
  format_scan template Text 0 args kwargs.

End Py.

Import Py.

(** ** The data model *)

(** An instance of [SequenceTask].  [start_frame], [end_frame] and
    [chunk_size] are declared with [attribute_type=int] and hold integers;
    [name] and the command line settings are attributes inherited from [Task];
    [attributes] holds the values of all further attributes (those of [Task]
    and of a subclass), by name. *)
Record SequenceTask : Type := {
  name : string;
  start_frame : Z;
  end_frame : Z;
  chunk_size : Z;
  temp_dir : option string;
  command_line_executable : option string;
  command_line_executable_args : option string;
  attributes : list (string * value)
}.

Definition set_name (v : string) (t : SequenceTask) : SequenceTask :=
  {| name := v; start_frame := start_frame t; end_frame := end_frame t;
     chunk_size := chunk_size t; temp_dir := temp_dir t;
     command_line_executable := command_line_executable t;
     command_line_executable_args := command_line_executable_args t;
     attributes := attributes t |}.

Definition set_start_frame (v : Z) (t : SequenceTask) : SequenceTask :=
  {| name := name t; start_frame := v; end_frame := end_frame t;
     chunk_size := chunk_size t; temp_dir := temp_dir t;
     command_line_executable := command_line_executable t;
     command_line_executable_args := command_line_executable_args t;
     attributes := attributes t |}.

Definition set_end_frame (v : Z) (t : SequenceTask) : SequenceTask :=
  {| name := name t; start_frame := start_frame t; end_frame := v;
     chunk_size := chunk_size t; temp_dir := temp_dir t;
     command_line_executable := command_line_executable t;
     command_line_executable_args := command_line_executable_args t;
     attributes := attributes t |}.

Definition set_temp_dir (v : option string) (t : SequenceTask) : SequenceTask :=
  {| name := name t; start_frame := start_frame t; end_frame := end_frame t;
     chunk_size := chunk_size t; temp_dir := v;
     command_line_executable := command_line_executable t;
     command_line_executable_args := command_line_executable_args t;
     attributes := attributes t |}.

(** An optional string as a Python value, [None] when absent. *)
Definition of_option (o : option string) : value :=
  match o with
  | None => VNone
  | Some s => VStr s
  end.

(** Truth value of an optional string: [None] and the empty string are false. *)
Definition truthy (o : option string) : bool :=
  match o with
  | None => false
  | Some s => negb (String.eqb s "")
  end.

(** [TaskAttribute] is declared in [task.py]; what [SequenceTask] uses of a
    descriptor is its [serialize] flag and its [__get__], the value the
    descriptor resolves to on an instance. *)
Record TaskAttribute : Type := {
  serialize : bool;
  __get__ : SequenceTask -> value
}.

(** The class of an instance: its [__name__] and the ordered mapping
    [task_attributes], as the list of its items. *)
Record TaskType : Type := {
  __name__ : string;
  task_attributes : list (string * TaskAttribute)
}.

(** The three descriptors that [SequenceTask] declares.  None of them
    sets [serialize], which [task.py] then leaves at its default: taken to
    be [True], as the frame bounds are expected on the command line. *)
Definition start_frame_attribute : TaskAttribute :=
  {| serialize := true; __get__ := fun t => VInt (start_frame t) |}.
Definition end_frame_attribute : TaskAttribute :=
  {| serialize := true; __get__ := fun t => VInt (end_frame t) |}.
Definition chunk_size_attribute : TaskAttribute :=
  {| serialize := true; __get__ := fun t => VInt (chunk_size t) |}.

Definition SequenceTask_attributes : list (string * TaskAttribute) :=
  [("start_frame", start_frame_attribute);
   ("end_frame", end_frame_attribute);
   ("chunk_size", chunk_size_attribute)].

(** What [logging.error] is called with: the message, kept as the
    arguments it is built from. *)
Inductive log_record : Type :=
| RunFailed (task_name : string) (reason : exn)
| FramesFailed (task_name : string) (failed_frames : list Z).

(** ** The monad of methods

    A method runs on a [machine]: the instance [this] it is called on, the
    [world] outside the instance (files, the state of collaborators) and the
    records [logged] so far.  It returns, raises, or runs out of [fuel]
    (only a [while] loop can). *)

Record machine (W : Type) : Type := {
  this : SequenceTask;
  world : W;
  logged : list log_record
}.
Arguments this {W} _.
Arguments world {W} _.
Arguments logged {W} _.

Inductive outcome (A : Type) : Type :=
| Returned (a : A)
| Raised (e : exn)
| Diverged.
Arguments Returned {A} a.
Arguments Raised {A} e.
Arguments Diverged {A}.

Definition M (W A : Type) : Type := machine W -> outcome A * machine W.

Definition ret {W A} (a : A) : M W A := fun m => (Returned a, m).

Definition bind {W A B} (c : M W A) (k : A -> M W B) : M W B :=
  fun m =>
    match c m with
    | (Returned a, m') => k a m'
    | (Raised e, m') => (Raised e, m')
    | (Diverged, m') => (Diverged, m')
    end.

Definition raise {W A} (e : exn) : M W A := fun m => (Raised e, m).

Definition diverge {W A} : M W A := fun m => (Diverged, m).

(** An expression that may raise, such as a call of [str.format]. *)
Definition eval {W A} (r : result A) : M W A :=
  match r with
  | inl e => raise e
  | inr a => ret a
  end.

(** [self.field] *)
Definition read {W A} (field : SequenceTask -> A) : M W A :=
  fun m => (Returned (field (this m)), m).

(** [self.field = v], with [update] the setter of the field at [v]. *)
Definition write {W} (update : SequenceTask -> SequenceTask) : M W unit :=
  fun m => (Returned tt,
            {| this := update (this m); world := world m; logged := logged m |}).

Definition log_error {W} (r : log_record) : M W unit :=
  fun m => (Returned tt,
            {| this := this m; world := world m; logged := logged m ++ [r] |}).

(** [try: body  except Exception as e: handler e]: what is raised and is
    no instance of [Exception] is not caught. *)
Definition try_except {W A} (body : M W A) (handler : exn -> M W A) : M W A :=
  fun m =>
    match body m with
    | (Raised e, m') => if is_exception e then handler e m' else (Raised e, m')
    | other => other
    end.

(** A method called on another object than [self]: it runs with that
    object as its instance, in the same world. *)
Definition on {W A} (receiver : SequenceTask) (c : M W A) : M W A :=
  fun m =>
    let (o, m') := c {| this := receiver; world := world m; logged := logged m |} in
    (o, {| this := this m; world := world m'; logged := logged m' |}).

Declare Scope method_scope.
Delimit Scope method_scope with method.
Notation "x <- c ;; k" := (bind c (fun x => k))
  (at level 61, c at next level, right associativity) : method_scope.
Notation "c ;; k" := (bind c (fun _ => k))
  (at level 61, right associativity) : method_scope.
Notation "'when' b 'then' c" := (if b then c else ret tt)
  (at level 60, b at level 9, c at level 60) : method_scope.
Local Open Scope method_scope.

(** [range(lo, hi)]: the integers from [lo] up to [hi], [hi] excluded. *)
Definition range (lo hi : Z) : list Z :=
  map (fun i => lo + Z.of_nat i) (seq 0 (Z.to_nat (hi - lo))).

(** What [export_to_python_script] returns: the one export of the generic
    task, or the list of the exports of the chunks. *)
Inductive exported (R : Type) : Type :=
| Script (r : R)
| Scripts (rs : list R).
Arguments Script {R} r.
Arguments Scripts {R} rs.

(** ** The methods of [SequenceTask] *)

Section Methods.

(** The world outside the instance, and what the export of one task
    returns (the path of the script it wrote). *)
Context {W R : Type}.

(** The class of the instance. *)
Variable cls : TaskType.

(** The methods inherited from [Task] ([task.py]) and the abstract [run],
    which a subclass supplies: any computation on the instance and the
    world. *)
Variable Task_validate : M W unit.
Variable setup : M W unit.
Variable run : Z -> M W Z.
Variable Task_export_to_python_script : string -> option string -> M W R.

(** Modelled from the spec: [Task.copy], defined in [task.py]; chunk
    generation always clones, so the copy is a task of its own holding
    the values of the instance. *)
Definition copy : M W SequenceTask := read (fun t => t).

Definition validate : M W unit :=
  Task_validate ;;
  chunk_size' <- read chunk_size ;;
  when (chunk_size' <? 0) then
    raise (TaskValidationException "Chunk size must be a positive number") ;;
  end_frame' <- read end_frame ;;
  start_frame' <- read start_frame ;;
  when (end_frame' <? start_frame') then
    (msg <- eval (format "Invalid Frame Range: {start_frame} - {end_frame}"
                         [VInt end_frame'; VInt start_frame'] []) ;;
     raise (TaskValidationException msg)) ;;
  end_frame' <- read end_frame ;;
  start_frame' <- read start_frame ;;
  when ((end_frame' <? 0) || (start_frame' <? 0)) then
    (msg <- eval (format "Invalid Frame Range (Negative frame numbers not allowed): {start_frame} - {end_frame}"
                         [VInt end_frame'; VInt start_frame'] []) ;;
     raise (TaskValidationException msg)).

(** The body of the [for] loop of [__call__], over the frames left. *)
Fixpoint for_frames (frames : list Z) (success : Z) (failed_frames : list Z)
    : M W (Z * list Z) :=
  match frames with
  | [] => ret (success, failed_frames)
  | frame :: rest =>
      result <- run frame ;;
      if negb (result =? 0)
      then for_frames rest 1 (failed_frames ++ [frame])
      else for_frames rest success failed_frames
  end.

(** The [try] statement yields [inl] of the value its handler returns
    from [__call__] with, or [inr] of the variables the loop leaves. *)
Definition __call__ : M W Z :=
  setup ;;
  tried <- try_except
    (start_frame' <- read start_frame ;;
     end_frame' <- read end_frame ;;
     left <- for_frames (range start_frame' (end_frame' + 1)) 0 [] ;;
     ret (inr left))
    (fun e =>
       name' <- read name ;;
       log_error (RunFailed name' e) ;;
       ret (inl 1)) ;;
  match tried with
  | inl status => ret status
  | inr (success, failed_frames) =>
      when (negb (success =? 0)) then
        (name' <- read name ;;
         log_error (FramesFailed name' failed_frames)) ;;
      ret success
  end.

(** The loop of [export_to_command_line] over [task_attributes.items()]. *)
Fixpoint serialize_attributes (deadline : bool)
    (items : list (string * TaskAttribute)) (arg_str : string) : M W string :=
  match items with
  | [] => ret arg_str
  | (attribute_name, attribute_obj) :: rest =>
      if negb (serialize attribute_obj)
      then serialize_attributes deadline rest arg_str
      else
        value <- read (__get__ attribute_obj) ;;
        if is_none value
        then serialize_attributes deadline rest arg_str
        else
          let value :=
            if deadline && String.eqb attribute_name "start_frame"
            then VStr "<STARTFRAME>"
            else if deadline && String.eqb attribute_name "end_frame"
            then VStr "<ENDFRAME>"
            else value in
          let value := if is_container value then VStr (repr value) else value in
          arg_str <- eval (format "{arg_str} --{attribute_name} {value}" []
                             [("arg_str", VStr arg_str);
                              ("attribute_name", VStr attribute_name);
                              ("value", VStr (repr value))]) ;;
          serialize_attributes deadline rest arg_str
  end.

Definition export_to_command_line (temp_dir' : option string) (deadline : bool)
    : M W (SequenceTask * string) :=
  own_temp_dir <- read temp_dir ;;
  when (negb (truthy own_temp_dir)) then write (set_temp_dir temp_dir') ;;
  arg_str <- serialize_attributes deadline (task_attributes cls) "" ;;
  executable <- read command_line_executable ;;
  executable_args <- read command_line_executable_args ;;
  command <- eval (format "{executable} {executable_args} --task_name {task_type} {task_args}" []
                     [("executable", of_option executable);
                      ("executable_args",
                       if truthy executable_args then of_option executable_args
                       else VStr "");
                      ("task_type", VStr (__name__ cls));
                      ("task_args", VStr arg_str)]) ;;
  self <- read (fun t => t) ;;
  ret (self, command).

(** The [while] loop of [export_to_python_script]; [end_frame'] and
    [name'] are the values saved before it. *)
Fixpoint chunk_loop (fuel : nat) (job_name : string) (temp_dir' : option string)
    (end_frame' : Z) (name' : string) (tasks : list R) : M W (list R) :=
  match fuel with
  | O => diverge
  | S fuel' =>
      cursor <- read end_frame ;;
      if cursor <? end_frame' then
        cursor <- read end_frame ;;
        write (set_start_frame (cursor + 1)) ;;
        lo <- read start_frame ;;
        size <- read chunk_size ;;
        write (set_end_frame (Z.min (lo + size - 1) end_frame')) ;;
        lo <- read start_frame ;;
        hi <- read end_frame ;;
        frame_str <- eval (format "{}-{}" [VInt lo; VInt hi] []) ;;
        chunk_name <- eval (format "{}_{}" [VStr name'; VStr frame_str] []) ;;
        write (set_name chunk_name) ;;
        framed_task <- copy ;;
        exported <- on framed_task (Task_export_to_python_script job_name temp_dir') ;;
        chunk_loop fuel' job_name temp_dir' end_frame' name' (tasks ++ [exported])
      else ret tasks
  end.

Definition export_to_python_script (fuel : nat) (job_name : string)
    (temp_dir' : option string) : M W (exported R) :=
  size <- read chunk_size ;;
  if size =? 0 then
    r <- Task_export_to_python_script job_name temp_dir' ;;
    ret (Script r)
  else
    start_frame' <- read start_frame ;;
    end_frame' <- read end_frame ;;
    name' <- read name ;;
    write (set_end_frame (start_frame' - 1)) ;;
    tasks <- chunk_loop fuel job_name temp_dir' end_frame' name' [] ;;
    write (set_start_frame start_frame') ;;
    write (set_end_frame end_frame') ;;
    write (set_name name') ;;
    ret (Scripts tasks).

End Methods.

(** ** A concrete task

    The scenario of the test suite: a task named [Task1] over the frames 10
    to 25 with the default chunk size 8, run by the executable [test].  Its
    class lists, before the three descriptors of [SequenceTask], descriptors
    in the manner of those that [Task] declares. *)

Fixpoint lookup (key : string) (items : list (string * value)) : option value :=
  match items with
  | [] => None
  | (k, v) :: rest => if String.eqb k key then Some v else lookup key rest
  end.

(** A descriptor whose value is kept under [key], [default_value] if unset. *)
Definition stored (key : string) (default_value : value) (serialized : bool)
    : TaskAttribute :=
  {| serialize := serialized;
     __get__ := fun t => match lookup key (attributes t) with
                         | Some v => v
                         | None => default_value
                         end |}.

Definition name_attribute : TaskAttribute :=
  {| serialize := true; __get__ := fun t => VStr (name t) |}.
Definition temp_dir_attribute : TaskAttribute :=
  {| serialize := true; __get__ := fun t => of_option (temp_dir t) |}.

Definition TestSequence : TaskType :=
  {| __name__ := "TestSequence";
     task_attributes :=
       [("name", name_attribute);
        ("dependencies", stored "dependencies" (VList []) false);
        ("replacements", stored "replacements" (VDict []) true);
        ("temp_dir", temp_dir_attribute)] ++ SequenceTask_attributes |}.

Definition Task1 : SequenceTask :=
  {| name := "Task1"; start_frame := 10; end_frame := 25; chunk_size := 8;
     temp_dir := None;
     command_line_executable := Some "test";
     command_line_executable_args := None;
     attributes := [("dependencies", VList []); ("replacements", VDict [])] |}.

(** A machine about to run a method of [self] in the world [w]. *)
Definition boot {W} (self : SequenceTask) (w : W) : machine W :=
  {| this := self; world := w; logged := [] |}.

(** An export that writes nothing and returns the name of its task. *)
Definition name_of_script {W} : string -> option string -> M W string :=
  fun job_name _ => read (fun t => job_name ++ "/" ++ name t).

(** [Task1] with chunking turned off. *)
Definition Task1_whole : SequenceTask :=
  {| name := "Task1"; start_frame := 10; end_frame := 25; chunk_size := 0;
     temp_dir := None;
     command_line_executable := Some "test";
     command_line_executable_args := None;
     attributes := [("dependencies", VList []); ("replacements", VDict [])] |}.

(** An export that fails on the chunk starting at frame 18. *)
Definition full_disk_at_18 : string -> option string -> M unit string :=
  fun job_name _ m =>
    if start_frame (this m) =? 18
    then (Raised (Exception "No space left on device"), m)
    else (Returned (job_name ++ "/" ++ name (this m)), m).

(** [Task1] up to the frame 30: three chunks, 10-17, 18-25 and 26-30. *)
Definition Task1_to_30 : SequenceTask := set_end_frame 30 Task1.

(** A [run] that fails on the frames 12 and 19 and nowhere else. *)
Definition fails_at_12_and_19 : Z -> M unit Z :=
  fun frame => ret (if (frame =? 12) || (frame =? 19) then 1 else 0).

(** A [run] that fails on the frame 11 and raises on the frame 12. *)
Definition raises_at_12 : Z -> M unit Z :=
  fun frame =>
    if frame =? 12 then raise (Exception "frame 12 cannot be read")
    else ret (if frame =? 11 then 1 else 0).

(** A [run] that leaves the interpreter on the frame 12, by [sys.exit(3)]. *)
Definition exits_at_12 : Z -> M unit Z :=
  fun frame => if frame =? 12 then raise (SystemExit 3) else ret 0.

(** ** The vocabulary of the properties *)

(** *** Command lines *)

(** How a value is put on the command line: its [repr], and for a list,
    a set or a dict the [repr] of the string that is its [repr]. *)
Definition quoted (v : value) : string :=
  if is_container v then repr (VStr (repr v)) else repr v.

(** What stands for the value [v] of the attribute [attribute_name]: with
    [deadline], the frame bounds give way to the tokens of the farm. *)
Definition shown (deadline : bool) (attribute_name : string) (v : value) : string :=
  if deadline && String.eqb attribute_name "start_frame" then repr (VStr "<STARTFRAME>")
  else if deadline && String.eqb attribute_name "end_frame" then repr (VStr "<ENDFRAME>")
  else quoted v.

(** The attributes that reach the command line: serialized, and not [None]. *)
Definition is_exported (self : SequenceTask) (item : string * TaskAttribute) : bool :=
  serialize (snd item) && negb (is_none (__get__ (snd item) self)).

(** The pairs of attribute name and text, in the order of declaration. *)
Definition pairs (deadline : bool) (self : SequenceTask)
    (items : list (string * TaskAttribute)) : list (string * string) :=
  map (fun item => (fst item, shown deadline (fst item) (__get__ (snd item) self)))
      (filter (is_exported self) items).

Definition argument (pair : string * string) : string :=
  " --" ++ fst pair ++ " " ++ snd pair.

Definition join_all (parts : list string) : string :=
  fold_right append "" parts.

(** [command.endswith(suffix)] *)
Fixpoint ends_with (s suffix : string) : bool :=
  String.eqb s suffix
  || match s with
     | EmptyString => false
     | String _ rest => ends_with rest suffix
     end.

(** The instance once [export_to_command_line] has looked at its
    [temp_dir]: a missing or empty one is replaced by the argument. *)
Definition with_temp_dir (temp_dir' : option string) (self : SequenceTask)
    : SequenceTask :=
  if truthy (temp_dir self) then self else set_temp_dir temp_dir' self.

Definition command_of (cls : TaskType) (deadline : bool) (self : SequenceTask) : string :=
  str (of_option (command_line_executable self)) ++ " "
  ++ (if truthy (command_line_executable_args self)
      then str (of_option (command_line_executable_args self)) else "")
  ++ " --task_name " ++ __name__ cls ++ " "
  ++ join_all (map argument (pairs deadline self (task_attributes cls))).

(** The command as the specification words it: the pairs joined by spaces. *)
Definition space_joined_command (cls : TaskType) (deadline : bool)
    (self : SequenceTask) : string :=
  str (of_option (command_line_executable self)) ++ " "
  ++ (if truthy (command_line_executable_args self)
      then str (of_option (command_line_executable_args self)) else "")
  ++ " --task_name " ++ __name__ cls ++ " "
  ++ String.concat " "
       (map (fun pair => "--" ++ fst pair ++ " " ++ snd pair)
            (pairs deadline self (task_attributes cls))).

Fixpoint last_char (s : string) : option ascii :=
  match s with
  | EmptyString => None
  | String c rest =>
      match rest with
      | EmptyString => Some c
      | String _ _ => last_char rest
      end
  end.

(** A text that ends, and not with a closing angle bracket. *)
Definition ends_otherwise (s : string) : Prop :=
  exists c, last_char s = Some c /\ c <> ">"%char.

(** *** Chunks *)

(** The quotient rounded up, for a positive divisor. *)
Definition ceil_div (a b : Z) : Z := (a + b - 1) / b.

(** The chunks the loop has left to make with its cursor at [cursor]. *)
Definition chunks_left (cursor hi size : Z) : nat :=
  Z.to_nat (ceil_div (hi - cursor) size).

(** The sub-ranges of [n] chunks of at most [size] frames, the first one
    starting after [cursor], none going beyond [hi]. *)
Fixpoint ranges_from (n : nat) (cursor hi size : Z) : list (Z * Z) :=
  match n with
  | O => []
  | S n' =>
      let lo := cursor + 1 in
      let stop := Z.min (lo + size - 1) hi in
      (lo, stop) :: ranges_from n' stop hi size
  end.

Definition chunk_count (lo hi size : Z) : nat :=
  Z.to_nat (ceil_div (hi - lo + 1) size).

Definition chunk_ranges (lo hi size : Z) : list (Z * Z) :=
  ranges_from (chunk_count lo hi size) (lo - 1) hi size.

(** [ranges] cut [lo .. hi] into consecutive, non-empty pieces: each
    starts where the one before stopped, the first at [lo], and the last
    stops at [hi]. *)
Fixpoint tiles (lo : Z) (ranges : list (Z * Z)) (hi : Z) : Prop :=
  match ranges with
  | [] => lo = hi + 1
  | (first, last) :: rest => first = lo /\ first <= last /\ tiles (last + 1) rest hi
  end.

Definition chunk_name (parent : string) (lo hi : Z) : string :=
  parent ++ "_" ++ int_str lo ++ "-" ++ int_str hi.

(** The instance narrowed to the chunk [lo .. hi] of the task named [parent]. *)
Definition framed (parent : string) (self : SequenceTask) (r : Z * Z) : SequenceTask :=
  set_name (chunk_name parent (fst r) (snd r))
           (set_end_frame (snd r) (set_start_frame (fst r) self)).

Section Vocabulary.

Context {W R : Type}.
Variable export : string -> option string -> M W R.
Variables (job_name : string) (temp_dir' : option string).

(** The exports of the chunks [ranges] one after the other, each on a
    copy of the instance narrowed to the chunk. *)
Fixpoint export_each (parent : string) (ranges : list (Z * Z)) (tasks : list R)
    : M W (list R) :=
  match ranges with
  | [] => ret tasks
  | r :: rest =>
      write (fun t => framed parent t r) ;;
      framed_task <- copy ;;
      exported <- on framed_task (export job_name temp_dir') ;;
      export_each parent rest (tasks ++ [exported])
  end.

End Vocabulary.

(** *** The calls of a collaborator *)

(** The machine without the record of calls. *)
Definition lower {W E} (m : machine (W * list E)) : machine W :=
  {| this := this m; world := fst (world m); logged := logged m |}.

(** The method [c], keeping a record in the world: each call adds the
    event made of the instance it was called on and of its outcome. *)
Definition traced {W A E} (event : SequenceTask -> outcome A -> E) (c : M W A)
    : M (W * list E) A :=
  fun m =>
    let (o, m') := c (lower m) in
    (o, {| this := this m';
           world := (world m', (snd (world m) ++ [event (this m) o])%list);
           logged := logged m' |}).

(** The export of a task, recording the task it is called on. *)
Definition recording {W R} (export : string -> option string -> M W R)
    : string -> option string -> M (W * list SequenceTask) R :=
  fun job_name temp_dir' => traced (fun receiver _ => receiver) (export job_name temp_dir').

(** The instance with its name and frame range blanked. *)
Definition unframed (t : SequenceTask) : SequenceTask :=
  set_name "" (set_end_frame 0 (set_start_frame 0 t)).

(** A call of a method of the subclass, as [__call__] makes them. *)
Inductive call : Type :=
| CalledSetup
| CalledRun (frame : Z) (answer : outcome Z).





(** [setup] and [run], with their calls recorded. *)
Definition traced_setup {W} (setup : M W unit) : M (W * list call) unit :=
  traced (fun _ _ => CalledSetup) setup.
Definition traced_run {W} (run : Z -> M W Z) (frame : Z) : M (W * list call) Z :=
  traced (fun _ answer => CalledRun frame answer) (run frame).

(** [Task1] with a negative chunk size, which [validate] refuses. *)
Definition Task1_negative : SequenceTask :=
  {| name := "Task1"; start_frame := 10; end_frame := 25; chunk_size := -8;
     temp_dir := None;
     command_line_executable := Some "test";
     command_line_executable_args := None;
     attributes := [("dependencies", VList []); ("replacements", VDict [])] |}.

(** [Task1] with no executable to run it. *)
Definition Task1_without_executable : SequenceTask :=
  {| name := "Task1"; start_frame := 10; end_frame := 25; chunk_size := 8;
     temp_dir := None;
     command_line_executable := None;
     command_line_executable_args := None;
     attributes := [("dependencies", VList []); ("replacements", VDict [])] |}.

(** A class that keeps its frame range off the command line. *)
Definition Quiet : TaskType :=
  {| __name__ := "Quiet";
     task_attributes :=
       [("start_frame",
         {| serialize := false; __get__ := fun t => VInt (start_frame t) |});
        ("end_frame",
         {| serialize := false; __get__ := fun t => VInt (end_frame t) |});
        ("temp_dir", temp_dir_attribute)] |}.

(** An export that writes nothing and returns the task it is given. *)
Definition task_itself {W} : string -> option string -> M W SequenceTask :=
  fun _ _ => read (fun t => t).

(** ** The abstract [run]

    [SequenceTask.run] does no work: it raises [NotImplementedError], for a
    subclass to override it. *)

(** [NotImplementedError] derives from [Exception]; the model keeps its
    message. *)
Definition NotImplementedError (msg : string) : exn := Exception msg.

Definition run {W} (frame : Z) : M W Z :=
  raise (NotImplementedError "run method must be overridden by child class").

(** * Properties *)

(** Unfolds the monad so that a method's body computes. *)
Ltac method_steps :=
  unfold bind, read, write, ret, raise, eval, log_error, copy, on, try_except;
  cbn.

(** ** Strings *)

Lemma append_empty (s : string) : s ++ "" = s.
Proof.
  induction s as [|c s IH]; cbn; [reflexivity | now rewrite IH].
Qed.

Lemma append_assoc (a b c : string) : (a ++ b) ++ c = a ++ b ++ c.
Proof.
  induction a as [|x a IH]; cbn; [reflexivity | now rewrite IH].
Qed.

Lemma length_append (a b : string) :
  String.length (a ++ b) = (String.length a + String.length b)%nat.
Proof.
  induction a as [|x a IH]; cbn; [reflexivity | now rewrite IH].
Qed.

(** ** The templates this module formats *)

Lemma format_frame_str (lo hi : Z) :
  format "{}-{}" [VInt lo; VInt hi] [] = ok (int_str lo ++ "-" ++ int_str hi).
Proof.
  transitivity (ok (A := string) (int_str lo ++ "-" ++ int_str hi ++ ""));
    [reflexivity | now rewrite append_empty].
Qed.

Lemma format_chunk_name (parent frame_str : string) :
  format "{}_{}" [VStr parent; VStr frame_str] [] = ok (parent ++ "_" ++ frame_str).
Proof.
  transitivity (ok (A := string) (parent ++ "_" ++ frame_str ++ ""));
    [reflexivity | now rewrite append_empty].
Qed.

Lemma format_argument (arg_str attribute_name value : string) :
  format "{arg_str} --{attribute_name} {value}" []
    [("arg_str", VStr arg_str); ("attribute_name", VStr attribute_name);
     ("value", VStr value)]
  = ok (arg_str ++ " --" ++ attribute_name ++ " " ++ value).
Proof.
  transitivity (ok (A := string) (arg_str ++ " --" ++ attribute_name ++ " " ++ value ++ ""));
    [reflexivity | now rewrite append_empty].
Qed.

Lemma format_command (executable executable_args : value) (task_type task_args : string) :
  format "{executable} {executable_args} --task_name {task_type} {task_args}" []
    [("executable", executable); ("executable_args", executable_args);
     ("task_type", VStr task_type); ("task_args", VStr task_args)]
  = ok (str executable ++ " " ++ str executable_args ++ " --task_name "
          ++ task_type ++ " " ++ task_args).
Proof.
  unfold format.
  lazy beta iota zeta delta -[str append].
  now rewrite append_empty.
Qed.

(** Both messages of [validate] about the frame range name their fields
    but are given positional arguments: formatting them raises. *)
Lemma format_invalid_frame_range (a b : value) :
  format "Invalid Frame Range: {start_frame} - {end_frame}" [a; b] []
  = throw (KeyError "start_frame").
Proof. reflexivity. Qed.

Lemma format_negative_frame_range (a b : value) :
  format "Invalid Frame Range (Negative frame numbers not allowed): {start_frame} - {end_frame}" [a; b] []
  = throw (KeyError "start_frame").
Proof. reflexivity. Qed.

Arguments format : simpl never.

(** ** [validate] *)

Section Validate.

Context {W : Type}.
Variable Task_validate : M W unit.

(** What the validation of [Task] raises, [validate] raises. *)
Lemma validate_base_failure (m m1 : machine W) (e : exn) :
  Task_validate m = (Raised e, m1) ->
  validate Task_validate m = (Raised e, m1).
Proof.
  intros Hbase. unfold validate, bind. now rewrite Hbase.
Qed.

Lemma validate_negative_chunk_size (m m1 : machine W) :
  Task_validate m = (Returned tt, m1) ->
  chunk_size (this m1) < 0 ->
  validate Task_validate m
  = (Raised (TaskValidationException "Chunk size must be a positive number"), m1).
Proof.
  intros Hbase Hsize. unfold validate, bind at 1. rewrite Hbase.
  method_steps.
  apply Z.ltb_lt in Hsize. now rewrite Hsize.
Qed.

Lemma validate_passes (m m1 : machine W) :
  Task_validate m = (Returned tt, m1) ->
  0 <= chunk_size (this m1) ->
  0 <= start_frame (this m1) <= end_frame (this m1) ->
  validate Task_validate m = (Returned tt, m1).
Proof.
  intros Hbase Hsize [Hlo Hhi]. unfold validate, bind at 1. rewrite Hbase.
  method_steps.
  destruct (Z.ltb_spec (chunk_size (this m1)) 0); [lia |].
  destruct (Z.ltb_spec (end_frame (this m1)) (start_frame (this m1))); [lia |].
  destruct (Z.ltb_spec (end_frame (this m1)) 0); [lia |].
  destruct (Z.ltb_spec (start_frame (this m1)) 0); [lia |].
  reflexivity.
Qed.

(** C3.  Once the validation of [Task] has passed and the chunk size is
    not negative, a frame range that is inverted or has a negative bound
    makes [validate] raise, but what it raises is the [KeyError] of the
    message it fails to format, not a [TaskValidationException]. *)
Theorem validate_bad_frame_range_raises_KeyError (m m1 : machine W) :
  Task_validate m = (Returned tt, m1) ->
  0 <= chunk_size (this m1) ->
  end_frame (this m1) < start_frame (this m1)
    \/ end_frame (this m1) < 0 \/ start_frame (this m1) < 0 ->
  validate Task_validate m = (Raised (KeyError "start_frame"), m1).
Proof.
  intros Hbase Hsize Hrange. unfold validate, bind at 1. rewrite Hbase.
  method_steps.
  destruct (Z.ltb_spec (chunk_size (this m1)) 0); [lia |].
  destruct (Z.ltb_spec (end_frame (this m1)) (start_frame (this m1))).
  - now rewrite format_invalid_frame_range.
  - cbn. rewrite format_negative_frame_range.
    destruct (Z.ltb_spec (end_frame (this m1)) 0); [reflexivity |].
    destruct (Z.ltb_spec (start_frame (this m1)) 0); [reflexivity | lia].
Qed.

End Validate.

(** The frames 5 to 3: [validate] raises [KeyError]. *)
Lemma validate_bad_frame_range_witness :
  validate (ret tt) (boot (set_end_frame 3 (set_start_frame 5 Task1)) tt)
  = (Raised (KeyError "start_frame"),
     boot (set_end_frame 3 (set_start_frame 5 Task1)) tt).
Proof.
  apply (validate_bad_frame_range_raises_KeyError (ret tt)).
  - reflexivity.
  - cbn. lia.
  - left. cbn. lia.
Defined.

(** ** [export_to_command_line] *)

Section CommandLine.

Context {W : Type}.

Lemma serialize_attributes_spec (deadline : bool)
    (items : list (string * TaskAttribute)) (arg_str : string) (m : machine W) :
  serialize_attributes deadline items arg_str m
  = (Returned (arg_str ++ join_all (map argument (pairs deadline (this m) items))), m).
Proof.
  revert arg_str.
  induction items as [|[attribute_name attribute_obj] rest IH]; intros arg_str.
  - cbn. now rewrite append_empty.
  - unfold pairs, is_exported. cbn [serialize_attributes filter fst snd].
    destruct (serialize attribute_obj) eqn:Hserialize; cbn [negb andb].
    + method_steps.
      destruct (is_none (__get__ attribute_obj (this m))) eqn:Hnone; cbn [negb].
      * apply IH.
      * rewrite format_argument. cbn [eval ret ok].
        rewrite IH. cbn [map join_all fold_right fst snd].
        unfold argument at 2, shown, quoted. cbn [fst snd].
        rewrite !append_assoc.
        repeat f_equal.
        destruct (deadline && (attribute_name =? "start_frame")%string); [reflexivity |].
        destruct (deadline && (attribute_name =? "end_frame")%string); [reflexivity |].
        now destruct (is_container (__get__ attribute_obj (this m))).
    + apply IH.
Qed.

Lemma export_to_command_line_spec (cls : TaskType) (temp_dir' : option string)
    (deadline : bool) (m : machine W) :
  let self := with_temp_dir temp_dir' (this m) in
  export_to_command_line cls temp_dir' deadline m
  = (Returned (self, command_of cls deadline self),
     {| this := self; world := world m; logged := logged m |}).
Proof.
  unfold export_to_command_line, with_temp_dir.
  unfold bind at 1. unfold read at 1.
  destruct (truthy (temp_dir (this m))) eqn:Htemp; cbn [negb];
    unfold bind at 1; cbn [ret write];
    unfold bind at 1; rewrite serialize_attributes_spec;
    method_steps; rewrite format_command; unfold ok, command_of; cbn;
    destruct (truthy (command_line_executable_args (this m)));
    destruct m; reflexivity.
Qed.

End CommandLine.

(** *** The last character of a command *)

Lemma last_char_append (a b : string) :
  b <> "" -> last_char (a ++ b) = last_char b.
Proof.
  intros Hb. induction a as [|x a IH]; [reflexivity |].
  cbn [append last_char]. rewrite IH.
  destruct (a ++ b) eqn:Hab; [| reflexivity].
  destruct a; cbn in Hab; [contradiction | discriminate].
Qed.

Lemma ends_otherwise_append (a b : string) :
  ends_otherwise b -> ends_otherwise (a ++ b).
Proof.
  intros [c [Hlast Hc]]. exists c. split; [| exact Hc].
  rewrite last_char_append; [exact Hlast |].
  intros ->. discriminate.
Qed.

Lemma ends_with_last_char (s suffix : string) :
  ends_with s suffix = true -> suffix <> "" -> last_char s = last_char suffix.
Proof.
  intros Hends Hsuffix. induction s as [|c s IH].
  - cbn [ends_with] in Hends. rewrite orb_false_r in Hends.
    apply String.eqb_eq in Hends. now subst.
  - cbn [ends_with] in Hends. apply orb_true_iff in Hends.
    destruct Hends as [Heq | Htail].
    + apply String.eqb_eq in Heq. now subst.
    + specialize (IH Htail). cbn [last_char]. destruct s as [|d s]; [| exact IH].
      cbn [ends_with] in Htail. rewrite orb_false_r in Htail.
      apply String.eqb_eq in Htail. now subst.
Qed.

Lemma ends_otherwise_cons (c : ascii) (s : string) :
  ends_otherwise s -> ends_otherwise (String c s).
Proof. apply (ends_otherwise_append (String c "")). Qed.

Lemma digits_end_otherwise (d : Decimal.uint) :
  d <> Decimal.Nil -> ends_otherwise (NilEmpty.string_of_uint d).
Proof.
  induction d; intros Hd; [contradiction | ..];
    cbn [NilEmpty.string_of_uint];
    (destruct d;
     [ eexists; split; [reflexivity | discriminate]
     | apply ends_otherwise_cons, IHd; discriminate .. ]).
Qed.

Lemma int_str_ends_otherwise (z : Z) : ends_otherwise (int_str z).
Proof.
  assert (Hnat : forall d, ends_otherwise (NilZero.string_of_uint d)).
  { intros d. destruct d; try (apply digits_end_otherwise; discriminate).
    eexists; split; [reflexivity | discriminate]. }
  unfold int_str, NilZero.string_of_int.
  destruct (Z.to_int z); [apply Hnat | apply ends_otherwise_cons, Hnat].
Qed.

Lemma str_repr_ends_otherwise (s : string) : ends_otherwise (str_repr s).
Proof.
  unfold str_repr.
  destruct (contains_char squote s && negb (contains_char dquote s));
    apply ends_otherwise_cons, ends_otherwise_append;
    eexists; (split; [reflexivity | discriminate]).
Qed.

Lemma shown_ends_otherwise (deadline : bool) (attribute_name : string) (v : value) :
  is_none v = false -> ends_otherwise (shown deadline attribute_name v).
Proof.
  intros Hv. unfold shown, quoted.
  destruct (deadline && _); [apply str_repr_ends_otherwise |].
  destruct (deadline && _); [apply str_repr_ends_otherwise |].
  destruct v as [|[]| | | | |]; cbn [is_container repr];
    try discriminate;
    try apply str_repr_ends_otherwise;
    try apply int_str_ends_otherwise;
    eexists; (split; [reflexivity | discriminate]).
Qed.

Lemma pairs_end_otherwise (deadline : bool) (self : SequenceTask)
    (items : list (string * TaskAttribute)) :
  Forall (fun pair => ends_otherwise (snd pair)) (pairs deadline self items).
Proof.
  unfold pairs. apply Forall_map, Forall_forall.
  intros item Hitem. apply filter_In in Hitem. destruct Hitem as [_ Hitem].
  unfold is_exported in Hitem. apply andb_true_iff in Hitem.
  apply shown_ends_otherwise. now destruct (is_none _).
Qed.

Lemma arguments_end_otherwise (ps : list (string * string)) :
  Forall (fun pair => ends_otherwise (snd pair)) ps ->
  ends_otherwise (" " ++ join_all (map argument ps)).
Proof.
  induction 1 as [|pair rest Hpair _ IH].
  - eexists; split; [reflexivity | discriminate].
  - cbn [map join_all fold_right].
    destruct rest as [|next rest].
    + cbn [map fold_right]. rewrite append_empty.
      unfold argument. now do 4 apply ends_otherwise_append.
    + apply ends_otherwise_append.
      apply (ends_otherwise_append (argument pair)).
      cbn [map join_all fold_right] in IH |- *.
      destruct IH as [c [Hlast Hc]]. exists c. split; [| exact Hc].
      rewrite <- Hlast. symmetry. apply (last_char_append " ").
      unfold argument. discriminate.
Qed.

Lemma command_ends_otherwise (cls : TaskType) (deadline : bool) (self : SequenceTask) :
  ends_otherwise (command_of cls deadline self).
Proof.
  unfold command_of.
  do 5 apply ends_otherwise_append.
  apply arguments_end_otherwise, pairs_end_otherwise.
Qed.

(** *** What the export does to the instance *)

(** C8, as far as it holds.  [export_to_command_line] leaves the world and
    the log alone and changes no field of the instance but [temp_dir]: a
    [temp_dir] that is set stays, and so does the whole instance; one that
    is [None] or empty becomes the argument. *)
Theorem export_to_command_line_only_fills_temp_dir {W : Type} (cls : TaskType)
    (temp_dir' : option string) (deadline : bool) (m : machine W) :
  let m' := snd (export_to_command_line cls temp_dir' deadline m) in
  world m' = world m
  /\ logged m' = logged m
  /\ this m' = (if truthy (temp_dir (this m)) then this m
                else set_temp_dir temp_dir' (this m)).
Proof.
  rewrite export_to_command_line_spec. cbn [snd this world logged].
  repeat split.
Qed.

(** C8, refuted as stated: exporting [Task1], which has no [temp_dir], with
    a [temp_dir] argument changes the [temp_dir] of the instance. *)
Lemma export_to_command_line_changes_temp_dir :
  temp_dir (this (snd (export_to_command_line TestSequence (Some "/tmp/wolfkrow")
                         false (boot Task1 tt))))
  <> temp_dir (this (boot Task1 tt)).
Proof. vm_compute. discriminate. Qed.

(** *** The command *)

(** C2, at the scenario of the test suite.  Without the farm placeholders,
    the frames 10 to 25 in chunks of 8 are exported as one command, which
    holds the whole range: no chunk is made. *)
Theorem export_to_command_line_does_not_chunk :
  export_to_command_line TestSequence None false (boot Task1 tt)
  = (Returned
       (Task1,
        "test  --task_name TestSequence  --name 'Task1' --replacements '{}' --start_frame 10 --end_frame 25 --chunk_size 8"),
     boot Task1 tt).
Proof. vm_compute. reflexivity. Qed.

(** C7, as far as it holds.  The command is the executable, its arguments,
    [--task_name] with the name of the class, a space, and then, in the
    order of declaration, one [ --name text] (a space before it) for each
    attribute that is serialized and does not resolve to [None], on the
    instance as the export leaves it; without the farm placeholders the text
    of a value is its [repr], and for a list, a set or a dict the [repr] of
    the string that is its [repr]. *)
Theorem command_line_lists_serialized_attributes {W : Type} (cls : TaskType)
    (temp_dir' : option string) (deadline : bool) (m : machine W) :
  let self := with_temp_dir temp_dir' (this m) in
  let listed := filter (fun item => serialize (snd item)
                          && negb (is_none (__get__ (snd item) self)))
                       (task_attributes cls) in
  let text item :=
    let v := __get__ (snd item) self in
    if deadline && String.eqb (fst item) "start_frame" then "'<STARTFRAME>'"
    else if deadline && String.eqb (fst item) "end_frame" then "'<ENDFRAME>'"
    else if is_container v then repr (VStr (repr v)) else repr v in
  fst (export_to_command_line cls temp_dir' deadline m)
  = Returned
      (self,
       str (of_option (command_line_executable self)) ++ " "
       ++ (if truthy (command_line_executable_args self)
           then str (of_option (command_line_executable_args self)) else "")
       ++ " --task_name " ++ __name__ cls ++ " "
       ++ join_all (map (fun item => " --" ++ fst item ++ " " ++ text item) listed)).
Proof.
  rewrite export_to_command_line_spec. cbn [fst]. unfold command_of, pairs.
  rewrite map_map. reflexivity.
Qed.

(** C7, refuted as stated: the command of [Task1] has two spaces where
    joining the pairs by spaces puts one. *)
Lemma command_line_is_not_space_joined :
  exists self command,
    fst (export_to_command_line TestSequence None false (boot Task1 tt))
    = Returned (self, command)
    /\ command <> space_joined_command TestSequence false self.
Proof.
  eexists. eexists. split; [vm_compute; reflexivity |].
  vm_compute. discriminate.
Qed.

(** C4, as far as it holds.  With the farm placeholders, the export
    returns one command whatever the chunk size; every pair named
    [start_frame] or [end_frame] in it holds the quoted token, whatever the
    frame; and the command does not end with [<STARTFRAME> <ENDFRAME>]. *)
Theorem placeholder_command_holds_quoted_tokens {W : Type} (cls : TaskType)
    (temp_dir' : option string) (m : machine W) :
  let self := with_temp_dir temp_dir' (this m) in
  let listed := pairs true self (task_attributes cls) in
  exists command,
    fst (export_to_command_line cls temp_dir' true m) = Returned (self, command)
    /\ command
       = str (of_option (command_line_executable self)) ++ " "
         ++ (if truthy (command_line_executable_args self)
             then str (of_option (command_line_executable_args self)) else "")
         ++ " --task_name " ++ __name__ cls ++ " "
         ++ join_all (map argument listed)
    /\ (forall text, In ("start_frame", text) listed -> text = "'<STARTFRAME>'")
    /\ (forall text, In ("end_frame", text) listed -> text = "'<ENDFRAME>'")
    /\ ends_with command "<STARTFRAME> <ENDFRAME>" = false.
Proof.
  intros self listed. exists (command_of cls true self).
  rewrite export_to_command_line_spec. cbn [fst]. fold self.
  split; [reflexivity |]. split; [reflexivity |].
  assert (Htoken : forall key text, In (key, text) listed ->
            (key = "start_frame" -> text = "'<STARTFRAME>'")
            /\ (key = "end_frame" -> text = "'<ENDFRAME>'")).
  { intros key text Hin. unfold listed, pairs in Hin.
    apply in_map_iff in Hin. destruct Hin as [item [Hitem _]].
    inversion Hitem; subst. unfold shown. cbn [andb].
    split; intros ->; reflexivity. }
  split; [| split].
  - intros text Hin. now apply (Htoken _ _ Hin).
  - intros text Hin. now apply (Htoken _ _ Hin).
  - destruct (ends_with _ _) eqn:Hends; [| reflexivity].
    apply ends_with_last_char in Hends; [| discriminate].
    destruct (command_ends_otherwise cls true self) as [c [Hlast Hc]].
    rewrite Hlast in Hends. cbn in Hends. congruence.
Qed.

(** C4, refuted as stated: with the farm placeholders, the command of
    [Task1] does not end with [<STARTFRAME> <ENDFRAME>]. *)
Lemma placeholder_command_does_not_end_with_tokens :
  fst (export_to_command_line TestSequence None true (boot Task1 tt))
  = Returned
      (Task1,
       "test  --task_name TestSequence  --name 'Task1' --replacements '{}' --start_frame '<STARTFRAME>' --end_frame '<ENDFRAME>' --chunk_size 8")
  /\ ends_with
       "test  --task_name TestSequence  --name 'Task1' --replacements '{}' --start_frame '<STARTFRAME>' --end_frame '<ENDFRAME>' --chunk_size 8"
       "<STARTFRAME> <ENDFRAME>" = false.
Proof. split; vm_compute; reflexivity. Qed.

(** ** [export_to_python_script] *)

(** *** The arithmetic of chunks *)

Lemma ceil_div_spec (a b : Z) :
  0 < b -> (ceil_div a b - 1) * b < a <= ceil_div a b * b.
Proof.
  intros Hb. unfold ceil_div.
  pose proof (Z.div_mod (a + b - 1) b ltac:(lia)) as Hdiv.
  pose proof (Z.mod_pos_bound (a + b - 1) b Hb) as Hmod.
  nia.
Qed.

Lemma ceil_div_unique (a b q : Z) :
  0 < b -> (q - 1) * b < a <= q * b -> ceil_div a b = q.
Proof.
  intros Hb Hq. pose proof (ceil_div_spec a b Hb) as Hspec. nia.
Qed.

Lemma chunks_left_done (cursor hi size : Z) :
  0 < size -> hi <= cursor -> chunks_left cursor hi size = O.
Proof.
  intros Hsize Hdone. unfold chunks_left.
  pose proof (ceil_div_spec (hi - cursor) size Hsize). nia.
Qed.

Lemma chunks_left_step (cursor hi size : Z) :
  0 < size -> cursor < hi ->
  chunks_left cursor hi size
  = S (chunks_left (Z.min (cursor + 1 + size - 1) hi) hi size).
Proof.
  intros Hsize Hmore. unfold chunks_left.
  set (stop := Z.min (cursor + 1 + size - 1) hi).
  pose proof (ceil_div_spec (hi - stop) size Hsize) as Hrest.
  assert (Hstop : stop = hi \/ stop = cursor + size /\ stop < hi) by (subst stop; lia).
  rewrite <- Z2Nat.inj_succ by nia.
  f_equal. apply ceil_div_unique; [exact Hsize |].
  destruct Hstop as [Hstop | [Hstop Hlt]]; rewrite Hstop in *.
  - assert (ceil_div (hi - hi) size = 0) as -> by (apply ceil_div_unique; lia). lia.
  - nia.
Qed.

Lemma chunk_count_left (lo hi size : Z) :
  chunk_count lo hi size = chunks_left (lo - 1) hi size.
Proof.
  unfold chunk_count, chunks_left. do 2 f_equal. lia.
Qed.

Lemma ranges_from_length (n : nat) (cursor hi size : Z) :
  List.length (ranges_from n cursor hi size) = n.
Proof.
  revert cursor. induction n as [|n IH]; intros cursor; cbn; [| rewrite IH]; reflexivity.
Qed.

Lemma ranges_from_tiles (n : nat) (cursor hi size : Z) :
  0 < size -> cursor <= hi -> n = chunks_left cursor hi size ->
  tiles (cursor + 1) (ranges_from n cursor hi size) hi.
Proof.
  intros Hsize. revert cursor.
  induction n as [|n IH]; intros cursor Hcursor Hn.
  - cbn. destruct (Z.eq_dec cursor hi) as [-> | Hne]; [reflexivity |].
    rewrite chunks_left_step in Hn by lia. discriminate.
  - destruct (Z.eq_dec cursor hi) as [-> | Hne].
    + rewrite chunks_left_done in Hn by lia. discriminate.
    + rewrite chunks_left_step in Hn by lia. injection Hn as Hn.
      cbn [ranges_from tiles]. repeat split; [lia |].
      apply IH; [lia | exact Hn].
Qed.




Lemma tiles_starts (lo hi : Z) (ranges : list (Z * Z)) :
  tiles lo ranges hi -> Forall (fun r => lo <= fst r) ranges.
Proof.
  revert lo. induction ranges as [|[first last] rest IH]; intros lo; cbn [tiles].
  - constructor.
  - intros [-> [Hle Hrest]]. constructor; [cbn; lia |].
    apply IH in Hrest. eapply Forall_impl; [| exact Hrest].
    cbn. intros r Hr. lia.
Qed.

(** Every piece lies wholly before the pieces after it. *)
Lemma tiles_ascending (lo hi : Z) (ranges : list (Z * Z)) :
  tiles lo ranges hi -> StronglySorted (fun r r' => snd r < fst r') ranges.
Proof.
  revert lo. induction ranges as [|[first last] rest IH]; intros lo; cbn [tiles].
  - constructor.
  - intros [-> [Hle Hrest]]. constructor; [now apply IH in Hrest |].
    apply tiles_starts in Hrest. eapply Forall_impl; [| exact Hrest].
    cbn. intros r Hr. lia.
Qed.

(** *** The loop, chunk by chunk *)

Lemma framed_again (parent : string) (self : SequenceTask) (r r' : Z * Z) :
  framed parent (framed parent self r) r' = framed parent self r'.
Proof. reflexivity. Qed.

Lemma chunk_name_longer (parent : string) (lo hi : Z) :
  chunk_name parent lo hi <> parent.
Proof.
  intros Heq. apply (f_equal String.length) in Heq.
  unfold chunk_name in Heq. rewrite length_append in Heq. cbn in Heq. lia.
Qed.

Arguments int_str : simpl never.

Section Chunks.

Context {W R : Type}.
Variable export : string -> option string -> M W R.
Variables (job_name : string) (temp_dir' : option string).

(** One turn of the loop while frames are left: the instance is narrowed
    to the next chunk and a copy of it exported. *)
Lemma chunk_loop_step (fuel : nat) (hi : Z) (parent : string) (tasks : list R)
    (m : machine W) :
  end_frame (this m) < hi ->
  chunk_loop export (S fuel) job_name temp_dir' hi parent tasks m
  = (let lo := end_frame (this m) + 1 in
     write (fun t => framed parent t (lo, Z.min (lo + chunk_size (this m) - 1) hi)) ;;
     framed_task <- copy ;;
     exported <- on framed_task (export job_name temp_dir') ;;
     chunk_loop export fuel job_name temp_dir' hi parent (tasks ++ [exported])) m.
Proof.
  intros Hmore. apply Z.ltb_lt in Hmore.
  cbn [chunk_loop]. method_steps. rewrite Hmore.
  rewrite format_frame_str. unfold ok. cbn.
  rewrite format_chunk_name. reflexivity.
Qed.

Lemma chunk_loop_exit (fuel : nat) (hi : Z) (parent : string) (tasks : list R)
    (m : machine W) :
  hi <= end_frame (this m) ->
  chunk_loop export (S fuel) job_name temp_dir' hi parent tasks m
  = (Returned tasks, m).
Proof.
  intros Hdone. apply Z.ltb_ge in Hdone.
  cbn [chunk_loop]. method_steps. now rewrite Hdone.
Qed.

(** With a positive chunk size and fuel for one turn more than there are
    chunks left, the loop is the export of the chunks left. *)
Lemma chunk_loop_exports_each (n fuel : nat) (hi : Z) (parent : string)
    (tasks : list R) (m : machine W) :
  0 < chunk_size (this m) ->
  n = chunks_left (end_frame (this m)) hi (chunk_size (this m)) ->
  (n < fuel)%nat ->
  chunk_loop export fuel job_name temp_dir' hi parent tasks m
  = export_each export job_name temp_dir' parent
      (ranges_from n (end_frame (this m)) hi (chunk_size (this m))) tasks m.
Proof.
  revert fuel tasks m.
  induction n as [|n IH]; intros fuel tasks m Hsize Hn Hfuel;
    (destruct fuel as [|fuel]; [lia |]);
    destruct (Z_lt_ge_dec (end_frame (this m)) hi) as [Hmore | Hdone].
  - rewrite chunks_left_step in Hn by assumption. discriminate.
  - now rewrite chunk_loop_exit by lia.
  - rewrite chunks_left_step in Hn by assumption. injection Hn as Hn.
    rewrite chunk_loop_step by assumption.
    cbn [ranges_from export_each]. cbv zeta.
    unfold bind, write, copy, read. cbn [this world logged].
    destruct (on _ _ _) as [[exported | e |] m'] eqn:Hon; try reflexivity.
    assert (Hthis : this m'
                    = framed parent (this m)
                        (end_frame (this m) + 1,
                         Z.min (end_frame (this m) + 1 + chunk_size (this m) - 1) hi)).
    { unfold on in Hon. cbn [this world logged] in Hon.
      destruct (export _ _ _) as [o mx]. now inversion Hon. }
    specialize (IH fuel (tasks ++ [exported])%list m').
    rewrite Hthis in IH. cbn [framed set_name set_end_frame set_start_frame
                               chunk_size end_frame fst snd] in IH.
    apply IH; [exact Hsize | exact Hn | lia].
  - rewrite chunks_left_done in Hn by lia. discriminate.
Qed.

End Chunks.

(** *** Observing the calls of a collaborator *)

Lemma unframed_restore (a b : SequenceTask) :
  unframed a = unframed b ->
  set_name (name b) (set_end_frame (end_frame b) (set_start_frame (start_frame b) a)) = b.
Proof.
  destruct a, b. unfold unframed. cbn. intros Heq. now inversion Heq.
Qed.

Section ChunkedExport.

Context {W R : Type}.
Variable export : string -> option string -> M W R.
Variables (job_name : string) (temp_dir' : option string).

(** Whatever the loop comes to, it has touched the name and the frame
    range of the instance only. *)
Lemma chunk_loop_keeps_rest (fuel : nat) (hi : Z) (parent : string)
    (tasks : list R) (m m' : machine W) (o : outcome (list R)) :
  chunk_loop export fuel job_name temp_dir' hi parent tasks m = (o, m') ->
  unframed (this m') = unframed (this m).
Proof.
  revert tasks m. induction fuel as [|fuel IH]; intros tasks m Hrun.
  - cbn in Hrun. now inversion Hrun.
  - destruct (Z_lt_ge_dec (end_frame (this m)) hi) as [Hmore | Hdone].
    + rewrite chunk_loop_step in Hrun by assumption. cbv zeta in Hrun.
      unfold bind, write, copy, read, on in Hrun. cbn [this world logged] in Hrun.
      destruct (export _ _ _) as [[exported | e |] m1];
        [apply IH in Hrun; exact Hrun | now inversion Hrun ..].
    + rewrite chunk_loop_exit in Hrun by lia. now inversion Hrun.
Qed.

(** With a chunk size that is not 0, the script export is the loop
    between the saving and the restoring of name and frame range. *)
Lemma export_to_python_script_chunked (fuel : nat) (m : machine W) :
  chunk_size (this m) <> 0 ->
  export_to_python_script export fuel job_name temp_dir' m
  = (write (set_end_frame (start_frame (this m) - 1)) ;;
     tasks <- chunk_loop export fuel job_name temp_dir'
                (end_frame (this m)) (name (this m)) [] ;;
     write (set_start_frame (start_frame (this m))) ;;
     write (set_end_frame (end_frame (this m))) ;;
     write (set_name (name (this m))) ;;
     ret (Scripts tasks)) m.
Proof.
  intros Hsize. apply Z.eqb_neq in Hsize.
  unfold export_to_python_script. unfold bind at 1, read at 1.
  rewrite Hsize. reflexivity.
Qed.

(** If every export returns, so does the export of each chunk. *)
Lemma export_each_returns (parent : string) (ranges : list (Z * Z))
    (tasks : list R) (m : machine W) :
  (forall m0, exists r m1, export job_name temp_dir' m0 = (Returned r, m1)) ->
  exists rs m',
    export_each export job_name temp_dir' parent ranges tasks m
    = (Returned rs, m')
    /\ List.length rs = (List.length tasks + List.length ranges)%nat.
Proof.
  intros Htotal. revert tasks m.
  induction ranges as [|r rest IH]; intros tasks m.
  - exists tasks, m. split; [reflexivity | cbn; lia].
  - cbn [export_each]. unfold bind, write, copy, read, on. cbn [this world logged].
    match goal with |- context [export job_name temp_dir' ?m0] =>
      destruct (Htotal m0) as [exported [m1 Hexport]] end.
    rewrite Hexport.
    match goal with |- context [export_each _ _ _ _ _ ?ts ?m2] =>
      destruct (IH ts m2) as [rs [m' [Hrun Hlen]]] end.
    exists rs, m'. split; [exact Hrun |].
    rewrite Hlen, length_app. cbn. lia.
Qed.

(** With a negative chunk size the cursor only moves back: the loop has
    no end, whatever the fuel.  [validate] refuses such a size, but the
    export does not call [validate]. *)
Lemma chunk_loop_negative_size (fuel : nat) (hi : Z) (parent : string)
    (tasks : list R) (m : machine W) :
  (forall m0, exists r m1, export job_name temp_dir' m0 = (Returned r, m1)) ->
  chunk_size (this m) < 0 ->
  end_frame (this m) < hi ->
  fst (chunk_loop export fuel job_name temp_dir' hi parent tasks m) = Diverged.
Proof.
  intros Htotal. revert tasks m.
  induction fuel as [|fuel IH]; intros tasks m Hsize Hmore; [reflexivity |].
  rewrite chunk_loop_step by assumption. cbv zeta.
  unfold bind, write, copy, read, on. cbn [this world logged].
  match goal with |- context [export job_name temp_dir' ?m0] =>
    destruct (Htotal m0) as [exported [m1 Hexport]] end.
  rewrite Hexport. apply IH; cbn; lia.
Qed.

(** X12.  With a negative chunk size and a frame range that is not
    inverted, [export_to_python_script] does not end, if the export of a
    chunk always returns: the fuel runs out, however much there is. *)
Lemma export_negative_chunk_size_diverges (fuel : nat) (m : machine W) :
  (forall m0, exists r m1, export job_name temp_dir' m0 = (Returned r, m1)) ->
  chunk_size (this m) < 0 ->
  start_frame (this m) <= end_frame (this m) ->
  fst (export_to_python_script export fuel job_name temp_dir' m) = Diverged.
Proof.
  intros Htotal Hsize Hrange.
  rewrite export_to_python_script_chunked by lia.
  unfold bind at 1. cbn [write]. unfold bind at 1.
  match goal with |- context [chunk_loop _ ?f _ _ ?h ?p ?ts ?m0] =>
    pose proof (chunk_loop_negative_size f h p ts m0 Htotal) as Hloop;
    destruct (chunk_loop export f job_name temp_dir' h p ts m0) as [[rs | e |] m1] end;
    cbn [fst this set_end_frame chunk_size end_frame] in Hloop;
    specialize (Hloop Hsize ltac:(lia)); try discriminate.
  reflexivity.
Qed.

End ChunkedExport.

(** *** No chunking *)

(** C9.  With a chunk size of 0, [export_to_python_script] is the export
    of the generic task, called once on the instance as it is, with its
    whole frame range; what that export returns comes back as the one
    script, whatever the range and with no need of fuel. *)
Theorem unchunked_export_is_the_generic_export {W R : Type}
    (export : string -> option string -> M W R) (fuel : nat)
    (job_name : string) (temp_dir' : option string) (m : machine W) :
  chunk_size (this m) = 0 ->
  export_to_python_script export fuel job_name temp_dir' m
  = match export job_name temp_dir' m with
    | (Returned r, m') => (Returned (Script r), m')
    | (Raised e, m') => (Raised e, m')
    | (Diverged, m') => (Diverged, m')
    end.
Proof.
  intros Hsize. unfold export_to_python_script.
  unfold bind at 1, read at 1. rewrite Hsize. cbn [Z.eqb].
  unfold bind, ret. now destruct (export job_name temp_dir' m) as [[r | e |] m'].
Qed.

(** [Task1_whole]: one script, for the task itself, and no fuel spent. *)
Lemma unchunked_export_witness :
  export_to_python_script name_of_script 0 "job" None (boot Task1_whole tt)
  = (Returned (Script "job/Task1"), boot Task1_whole tt).
Proof.
  apply (unchunked_export_is_the_generic_export
           name_of_script 0 "job" None (boot Task1_whole tt)).
  reflexivity.
Defined.

(** *** Chunking *)

Section ChunkedExportClaims.

Context {W R : Type}.
Variable export : string -> option string -> M W R.
Variables (job_name : string) (temp_dir' : option string).

(** C5.  With a positive chunk size, whenever [export_to_python_script]
    returns, the instance is as it was before the call: its
    [start_frame], [end_frame] and [name], and every other field.  And it
    does return, given fuel for one turn more than there are chunks, if
    the export of a chunk always returns. *)
Theorem chunked_export_restores_parent (m : machine W) :
  0 < chunk_size (this m) ->
  (forall fuel x m',
      export_to_python_script export fuel job_name temp_dir' m = (Returned x, m') ->
      start_frame (this m') = start_frame (this m)
      /\ end_frame (this m') = end_frame (this m)
      /\ name (this m') = name (this m)
      /\ this m' = this m)
  /\ ((forall m0, exists r m1, export job_name temp_dir' m0 = (Returned r, m1)) ->
      forall fuel,
        (chunk_count (start_frame (this m)) (end_frame (this m)) (chunk_size (this m))
         < fuel)%nat ->
        exists rs m',
          export_to_python_script export fuel job_name temp_dir' m
          = (Returned (Scripts rs), m')).
Proof.
  intros Hsize. split.
  - intros fuel x m' Hrun.
    rewrite export_to_python_script_chunked in Hrun by lia.
    unfold bind at 1 in Hrun. cbn [write] in Hrun. unfold bind at 1 in Hrun.
    destruct (chunk_loop _ _ _ _ _ _ _ _) as [[tasks | e |] m1] eqn:Hloop;
      cbn beta iota in Hrun; try discriminate.
    apply chunk_loop_keeps_rest in Hloop. cbn [this] in Hloop.
    change (unframed (set_end_frame _ (this m))) with (unframed (this m)) in Hloop.
    apply unframed_restore in Hloop.
    unfold bind, write, ret in Hrun. cbn [this] in Hrun.
    inversion Hrun; subst; clear Hrun. cbn [this].
    rewrite Hloop. repeat split.
  - intros Htotal fuel Hfuel.
    rewrite export_to_python_script_chunked by lia.
    unfold bind at 1. cbn [write]. unfold bind at 1.
    rewrite (chunk_loop_exports_each export job_name temp_dir'
               (chunk_count (start_frame (this m)) (end_frame (this m))
                  (chunk_size (this m))));
      [| exact Hsize | apply chunk_count_left | exact Hfuel].
    match goal with |- context [export_each _ _ _ ?p ?rs ?ts ?m0] =>
      destruct (export_each_returns export job_name temp_dir' p rs ts m0 Htotal)
        as [rs' [m' [Hrun _]]] end.
    rewrite Hrun. unfold bind, write, ret. eexists. eexists. reflexivity.
Qed.

End ChunkedExportClaims.

(** [Task1] in chunks of 8: restored after both chunks are exported. *)
Lemma chunked_export_restores_parent_witness :
  (forall fuel x m',
      export_to_python_script (W := unit) name_of_script fuel "job" None (boot Task1 tt)
      = (Returned x, m') ->
      start_frame (this m') = 10 /\ end_frame (this m') = 25
      /\ name (this m') = "Task1" /\ this m' = Task1)
  /\ ((forall m0 : machine unit, exists r m1,
          name_of_script "job" None m0 = (Returned r, m1)) ->
      forall fuel, (2 < fuel)%nat ->
      exists rs m',
        export_to_python_script name_of_script fuel "job" None (boot Task1 tt)
        = (Returned (Scripts rs), m')).
Proof.
  apply (chunked_export_restores_parent name_of_script "job" None (boot Task1 tt)).
  cbn. lia.
Defined.

(** *** When the export of a chunk fails *)

Section FailingExport.

Context {W R : Type}.
Variable export : string -> option string -> M W R.
Variables (job_name : string) (temp_dir' : option string).

(** The chunks [before] are exported, the export of [r] raises: the
    exception comes out and the instance stays narrowed to [r]. *)
Lemma export_each_raises (parent : string) (before after : list (Z * Z))
    (r : Z * Z) (e : exn) (tasks : list R) (m : machine W) :
  (forall c m0, In c before -> this m0 = framed parent (this m) c ->
                exists x m1, export job_name temp_dir' m0 = (Returned x, m1)) ->
  (forall m0, this m0 = framed parent (this m) r ->
              exists m1, export job_name temp_dir' m0 = (Raised e, m1)) ->
  exists m',
    export_each export job_name temp_dir' parent (before ++ r :: after) tasks m
    = (Raised e, m')
    /\ this m' = framed parent (this m) r.
Proof.
  revert tasks m.
  induction before as [|c before IH]; intros tasks m Hbefore Hfails;
    cbn [app export_each]; unfold bind, write, copy, read, on;
    cbn [this world logged].
  - match goal with |- context [export job_name temp_dir' ?m0] =>
      destruct (Hfails m0 eq_refl) as [m1 Hexport] end.
    rewrite Hexport. eexists. split; reflexivity.
  - match goal with |- context [export job_name temp_dir' ?m0] =>
      destruct (Hbefore c m0 (or_introl eq_refl) eq_refl) as [x [m1 Hexport]] end.
    rewrite Hexport.
    match goal with |- context [export_each _ _ _ _ _ ?ts ?m2] =>
      destruct (IH ts m2) as [m' [Hrun Hthis]] end.
    + intros c' m0 Hin Hm0. apply (Hbefore c' m0); [now right | exact Hm0].
    + intros m0 Hm0. apply (Hfails m0). exact Hm0.
    + exists m'. split; [exact Hrun | exact Hthis].
Qed.

(** C10.  Let the export return for the chunks [before] and raise [e] for
    the chunk [lo .. hi] that follows them.  Then
    [export_to_python_script] raises [e], and the instance is left with
    the frame range and the name of that chunk: nothing is restored. *)
Theorem failed_chunk_export_leaves_parent_narrowed (self : SequenceTask) (w : W)
    (before after : list (Z * Z)) (lo hi : Z) (e : exn) :
  0 < chunk_size self ->
  chunk_ranges (start_frame self) (end_frame self) (chunk_size self)
  = (before ++ (lo, hi) :: after)%list ->
  (forall r m, In r before -> this m = framed (name self) self r ->
               exists x m', export job_name temp_dir' m = (Returned x, m')) ->
  (forall m, this m = framed (name self) self (lo, hi) ->
             exists m', export job_name temp_dir' m = (Raised e, m')) ->
  forall fuel,
    (chunk_count (start_frame self) (end_frame self) (chunk_size self) < fuel)%nat ->
    exists m',
      export_to_python_script export fuel job_name temp_dir' (boot self w)
      = (Raised e, m')
      /\ start_frame (this m') = lo
      /\ end_frame (this m') = hi
      /\ name (this m') = name self ++ "_" ++ int_str lo ++ "-" ++ int_str hi
      /\ name (this m') <> name self.
Proof.
  intros Hsize Hranges Hbefore Hfails fuel Hfuel.
  rewrite export_to_python_script_chunked by (cbn; lia).
  unfold bind at 1. cbn [write boot this world logged]. unfold bind at 1.
  rewrite (chunk_loop_exports_each export job_name temp_dir'
             (chunk_count (start_frame self) (end_frame self) (chunk_size self)));
    [| exact Hsize | apply chunk_count_left | exact Hfuel].
  cbn [this set_end_frame end_frame chunk_size].
  fold (chunk_ranges (start_frame self) (end_frame self) (chunk_size self)).
  rewrite Hranges.
  match goal with |- context [export_each _ _ _ ?p _ ?ts ?m0] =>
    destruct (export_each_raises p before after (lo, hi) e ts m0)
      as [m' [Hrun Hthis]] end.
  - intros c m0 Hin Hm0. apply (Hbefore c m0 Hin). exact Hm0.
  - intros m0 Hm0. apply (Hfails m0). exact Hm0.
  - rewrite Hrun. exists m'. split; [reflexivity |].
    rewrite Hthis. cbn. repeat split. apply chunk_name_longer.
Qed.

End FailingExport.

(** [Task1] when the export of its second chunk fails: it is left as the
    chunk 18 to 25. *)
Lemma failed_chunk_export_witness :
  exists m',
    export_to_python_script full_disk_at_18 3 "job" None (boot Task1 tt)
    = (Raised (Exception "No space left on device"), m')
    /\ start_frame (this m') = 18
    /\ end_frame (this m') = 25
    /\ name (this m') = "Task1" ++ "_" ++ int_str 18 ++ "-" ++ int_str 25
    /\ name (this m') <> "Task1".
Proof.
  apply (failed_chunk_export_leaves_parent_narrowed full_disk_at_18 "job" None
           Task1 tt [(10, 17)] [] 18 25).
  - cbn. lia.
  - reflexivity.
  - intros r m [<- | []] Hm. unfold full_disk_at_18. rewrite Hm.
    eexists. eexists. reflexivity.
  - intros m Hm. unfold full_disk_at_18. rewrite Hm.
    eexists. reflexivity.
  - vm_compute. lia.
Defined.

(** *** The chunks that are exported *)

Lemma tiles_nonempty (lo hi : Z) (ranges : list (Z * Z)) :
  tiles lo ranges hi -> Forall (fun r => fst r <= snd r) ranges.
Proof.
  revert lo. induction ranges as [|[first last] rest IH]; intros lo; cbn [tiles].
  - constructor.
  - intros [-> [Hle Hrest]]. constructor; [exact Hle | now apply IH in Hrest].
Qed.

Section RecordedExport.

Context {W R : Type}.
Variable export : string -> option string -> M W R.
Variables (job_name : string) (temp_dir' : option string).
Hypothesis export_returns :
  forall m0, exists r m1, export job_name temp_dir' m0 = (Returned r, m1).



End RecordedExport.


(** ** [__call__] *)

Lemma range_In (lo hi frame : Z) : In frame (range lo hi) <-> lo <= frame < hi.
Proof.
  unfold range. rewrite in_map_iff. split.
  - intros [i [<- Hi]]. apply in_seq in Hi. lia.
  - intros Hframe. exists (Z.to_nat (frame - lo)). split; [lia |].
    apply in_seq. lia.
Qed.



Section Call.

Context {W : Type}.
Variable setup : M W unit.
Variable run : Z -> M W Z.
Hypothesis run_ends : forall frame m, fst (run frame m) <> Diverged.


(** What [setup] raises, [__call__] raises: no frame is run. *)
Lemma call_setup_failure (m m1 : machine W) (e : exn) :
  setup m = (Raised e, m1) -> __call__ setup run m = (Raised e, m1).
Proof.
  intros Hsetup. unfold __call__. unfold bind at 1. now rewrite Hsetup.
Qed.

(** What [__call__] comes to once [setup] has returned, from the outcome
    of its loop: a raise is answered with the status 1 and a log record
    when it is an instance of [Exception], and leaves [__call__] as it is
    otherwise. *)
Lemma call_after_setup (m m1 m2 : machine W) :
  setup m = (Returned tt, m1) ->
  m2 = m1 ->
  __call__ setup run m
  = match for_frames run
            (range (start_frame (this m2)) (end_frame (this m2) + 1)) 0 [] m2 with
    | (Returned (success, failed_frames), m') =>
        (Returned success,
         if negb (success =? 0)
         then {| this := this m'; world := world m';
                 logged := (logged m'
                            ++ [FramesFailed (name (this m')) failed_frames])%list |}
         else m')
    | (Raised e, m') =>
        if is_exception e
        then (Returned 1,
              {| this := this m'; world := world m';
                 logged := (logged m' ++ [RunFailed (name (this m')) e])%list |})
        else (Raised e, m')
    | (Diverged, m') => (Diverged, m')
    end.
Proof.
  intros Hsetup ->. unfold __call__. unfold bind at 1. rewrite Hsetup.
  unfold bind, try_except, read, ret, log_error. cbn [this].
  destruct (for_frames run _ 0 [] m1)
    as [[[success failed_frames] | e |] m']; cbn [this world logged].
  - now destruct (success =? 0).
  - now destruct (is_exception e).
  - reflexivity.
Qed.

End Call.

Section CallTraced.

Context {W : Type}.
Variable setup : M W unit.
Variable run : Z -> M W Z.
Hypothesis run_ends : forall frame m, fst (run frame m) <> Diverged.


End CallTraced.



(** The same run, computed: status 1, and the frames 12 and 19 logged. *)
Example call_fails_at_12_and_19 :
  let (status, m') := __call__ (ret tt) fails_at_12_and_19 (boot Task1 tt) in
  status = Returned 1 /\ logged m' = [FramesFailed "Task1" [12; 19]].
Proof. vm_compute. split; reflexivity. Qed.


(** * Further properties *)

(** ** [validate], in full *)

Section ValidateOutcome.

Context {W : Type}.
Variable Task_validate : M W unit.

(** What [validate] comes to once the validation of [Task] has passed. *)
Lemma validate_outcome (m m1 : machine W) :
  Task_validate m = (Returned tt, m1) ->
  validate Task_validate m
  = if chunk_size (this m1) <? 0
    then (Raised (TaskValidationException "Chunk size must be a positive number"), m1)
    else if (end_frame (this m1) <? start_frame (this m1))
            || (end_frame (this m1) <? 0) || (start_frame (this m1) <? 0)
    then (Raised (KeyError "start_frame"), m1)
    else (Returned tt, m1).
Proof.
  intros Hbase. unfold validate, bind at 1. rewrite Hbase.
  method_steps.
  destruct (chunk_size (this m1) <? 0); [reflexivity |].
  destruct (end_frame (this m1) <? start_frame (this m1)); cbn [orb].
  - now rewrite format_invalid_frame_range.
  - cbn. rewrite format_negative_frame_range.
    now destruct (end_frame (this m1) <? 0), (start_frame (this m1) <? 0).
Qed.

(** X1.  Once the validation of [Task] has passed, [validate] returns
    exactly when the chunk size is 0 or more and the frame range starts at 0
    or later and is not inverted; it then leaves the instance and the world
    as the validation of [Task] left them.  A chunk size of 0 is accepted. *)
Theorem validate_accepts_exactly (m m1 : machine W) :
  Task_validate m = (Returned tt, m1) ->
  (fst (validate Task_validate m) = Returned tt
   <-> 0 <= chunk_size (this m1)
       /\ 0 <= start_frame (this m1) <= end_frame (this m1))
  /\ (fst (validate Task_validate m) = Returned tt ->
      snd (validate Task_validate m) = m1).
Proof.
  intros Hbase. rewrite (validate_outcome m m1 Hbase).
  destruct (Z.ltb_spec (chunk_size (this m1)) 0);
    destruct (Z.ltb_spec (end_frame (this m1)) (start_frame (this m1)));
    destruct (Z.ltb_spec (end_frame (this m1)) 0);
    destruct (Z.ltb_spec (start_frame (this m1)) 0);
    cbn [orb fst snd]; (split; [split; [try discriminate; lia | intros; try lia; reflexivity] | reflexivity]).
Qed.

(** X2.  Once the validation of [Task] has passed, the only
    [TaskValidationException] that [validate] raises is the one about the
    chunk size: it is raised exactly when the chunk size is negative,
    whatever the frame range, which is not looked at before. *)
Theorem validate_reports_only_the_chunk_size (m m1 : machine W) :
  Task_validate m = (Returned tt, m1) ->
  (chunk_size (this m1) < 0 ->
   validate Task_validate m
   = (Raised (TaskValidationException "Chunk size must be a positive number"), m1))
  /\ (forall msg,
        fst (validate Task_validate m) = Raised (TaskValidationException msg) ->
        chunk_size (this m1) < 0 /\ msg = "Chunk size must be a positive number").
Proof.
  intros Hbase. rewrite (validate_outcome m m1 Hbase).
  destruct (Z.ltb_spec (chunk_size (this m1)) 0) as [Hneg | Hsize].
  - split; [reflexivity |]. intros msg Hmsg. cbn in Hmsg. inversion Hmsg. now split.
  - split; [lia |]. intros msg Hmsg.
    destruct (_ || _); cbn in Hmsg; discriminate.
Qed.

End ValidateOutcome.

(** [Task1] is accepted; so is [Task1_whole], whose chunk size is 0. *)
Lemma validate_accepts_witness :
  (fst (validate (W := unit) (ret tt) (boot Task1_whole tt)) = Returned tt
   <-> 0 <= 0 /\ 0 <= 10 <= 25)
  /\ (fst (validate (W := unit) (ret tt) (boot Task1_whole tt)) = Returned tt ->
      snd (validate (ret tt) (boot Task1_whole tt)) = boot Task1_whole tt).
Proof.
  apply (validate_accepts_exactly (ret tt) (boot Task1_whole tt) (boot Task1_whole tt)).
  reflexivity.
Defined.

(** A chunk size of -8 over the inverted range 25 to 10: the chunk size is
    what is reported. *)
Lemma validate_reports_witness :
  (-8 < 0 ->
   validate (W := unit) (ret tt)
     (boot (set_end_frame 10 (set_start_frame 25 Task1_negative)) tt)
   = (Raised (TaskValidationException "Chunk size must be a positive number"),
      boot (set_end_frame 10 (set_start_frame 25 Task1_negative)) tt))
  /\ (forall msg,
        fst (validate (W := unit) (ret tt)
               (boot (set_end_frame 10 (set_start_frame 25 Task1_negative)) tt))
        = Raised (TaskValidationException msg) ->
        -8 < 0 /\ msg = "Chunk size must be a positive number").
Proof.
  apply (validate_reports_only_the_chunk_size (ret tt)
           (boot (set_end_frame 10 (set_start_frame 25 Task1_negative)) tt)
           (boot (set_end_frame 10 (set_start_frame 25 Task1_negative)) tt)).
  reflexivity.
Defined.

(** ** [__call__] at the edges *)

Lemma range_empty (lo hi : Z) : hi <= lo -> range lo hi = [].
Proof.
  intros Hle. unfold range. now replace (Z.to_nat (hi - lo)) with O by lia.
Qed.

Lemma range_first (lo hi : Z) : lo < hi -> range lo hi = lo :: range (lo + 1) hi.
Proof.
  intros Hlt. unfold range.
  replace (Z.to_nat (hi - lo)) with (S (Z.to_nat (hi - (lo + 1)))) by lia.
  cbn [seq map]. f_equal; [lia |].
  rewrite <- seq_shift, map_map. apply map_ext. intros i. lia.
Qed.

Section CallEdges.

Context {W : Type}.
Variable setup : M W unit.

(** The status the loop leaves is 0 or 1 if it was so at the start. *)
Lemma for_frames_status (run' : Z -> M W Z) (frames : list Z) (success : Z)
    (failed_frames : list Z) (m : machine W) :
  success = 0 \/ success = 1 ->
  forall left m',
    for_frames run' frames success failed_frames m = (Returned left, m') ->
    fst left = 0 \/ fst left = 1.
Proof.
  revert success failed_frames m.
  induction frames as [|frame frames IH]; intros success failed_frames m Hsuccess left m' Hloop.
  - cbn in Hloop. inversion Hloop. exact Hsuccess.
  - cbn [for_frames] in Hloop. unfold bind in Hloop.
    destruct (run' frame m) as [[status | e |] m1]; try discriminate.
    destruct (negb (status =? 0)); eapply IH; try exact Hloop; auto.
Qed.

(** The loop ends if every [run] does. *)
Lemma for_frames_ends (run' : Z -> M W Z) (frames : list Z) (success : Z)
    (failed_frames : list Z) (m : machine W) :
  (forall frame m0, fst (run' frame m0) <> Diverged) ->
  fst (for_frames run' frames success failed_frames m) <> Diverged.
Proof.
  intros Hends. revert success failed_frames m.
  induction frames as [|frame frames IH]; intros success failed_frames m.
  - discriminate.
  - cbn [for_frames]. unfold bind. specialize (Hends frame m).
    destruct (run' frame m) as [[status | e |] m2]; cbn [fst] in *;
      [| discriminate | contradiction].
    destruct (negb (status =? 0)); apply IH.
Qed.

(** What the loop raises, the [run] of one of its frames has raised. *)
Lemma for_frames_raises (run' : Z -> M W Z) (frames : list Z) (success : Z)
    (failed_frames : list Z) (m m' : machine W) (e : exn) :
  for_frames run' frames success failed_frames m = (Raised e, m') ->
  exists frame m0, In frame frames /\ run' frame m0 = (Raised e, m').
Proof.
  revert success failed_frames m.
  induction frames as [|frame frames IH]; intros success failed_frames m Hloop.
  - discriminate Hloop.
  - cbn [for_frames] in Hloop. unfold bind in Hloop.
    destruct (run' frame m) as [[status | e' |] m2] eqn:Hrun.
    + assert (Hlater : exists frame' m0,
                 In frame' frames /\ run' frame' m0 = (Raised e, m')).
      { destruct (negb (status =? 0)); eapply IH; exact Hloop. }
      destruct Hlater as [frame' [m0 [Hin Hraised]]].
      exists frame', m0. split; [now right | exact Hraised].
    + inversion Hloop; subst. exists frame, m. split; [now left | exact Hrun].
    + discriminate Hloop.
Qed.

(** X3.  Once [setup] has returned, and if every [run] ends, [__call__]
    ends in one of three ways: it returns 0, it returns 1, or it raises
    what the [run] of a frame of the range has raised and is no instance
    of [Exception].  So neither the status of a [run] nor an [Exception]
    of a [run] comes out of it, and where [run] raises instances of
    [Exception] only, [__call__] returns 0 or 1. *)
Theorem call_returns_0_or_1_unless_run_exits (run' : Z -> M W Z) (m m1 : machine W) :
  (forall frame m0, fst (run' frame m0) <> Diverged) ->
  setup m = (Returned tt, m1) ->
  exists answer m',
    __call__ setup run' m = (answer, m')
    /\ (answer = Returned 0
        \/ answer = Returned 1
        \/ exists e frame m0,
             answer = Raised e
             /\ is_exception e = false
             /\ start_frame (this m1) <= frame <= end_frame (this m1)
             /\ run' frame m0 = (Raised e, m'))
    /\ ((forall frame m0 e m0', run' frame m0 = (Raised e, m0') -> is_exception e = true) ->
        answer = Returned 0 \/ answer = Returned 1).
Proof.
  intros Hends Hsetup.
  rewrite (call_after_setup setup run' m m1 m1 Hsetup eq_refl).
  set (frames := range (start_frame (this m1)) (end_frame (this m1) + 1)).
  pose proof (for_frames_ends run' frames 0 [] m1 Hends) as Hloop.
  pose proof (for_frames_status run' frames 0 [] m1 (or_introl eq_refl)) as Hstatus.
  pose proof (fun m' e => for_frames_raises run' frames 0 [] m1 m' e) as Hraises.
  destruct (for_frames run' frames 0 [] m1) as [[[success failed_frames] | e |] m2].
  - specialize (Hstatus _ _ eq_refl). cbn [fst] in Hstatus.
    assert (Hanswer : Returned success = Returned 0 \/ Returned success = Returned 1
                      :> outcome Z)
      by (destruct Hstatus as [-> | ->]; [now left | now right]).
    eexists. eexists. split; [reflexivity |].
    split; [| intros _; exact Hanswer].
    destruct Hanswer as [Hanswer | Hanswer]; [left | right; left]; exact Hanswer.
  - destruct (Hraises m2 e eq_refl) as [frame [m0 [Hin Hrun]]].
    destruct (is_exception e) eqn:Hcaught.
    + eexists. eexists. split; [reflexivity |].
      split; [right; now left | intros _; now right].
    + exists (Raised e), m2. split; [reflexivity |]. split.
      * right. right. exists e, frame, m0.
        split; [reflexivity |]. split; [exact Hcaught |].
        split; [| exact Hrun].
        subst frames. apply range_In in Hin. lia.
      * intros Honly. specialize (Honly frame m0 e m2 Hrun). congruence.
  - now contradiction Hloop.
Qed.

(** X4.  With [end_frame] below [start_frame] once [setup] has returned,
    [__call__] returns 0 with no call of [run] and nothing logged: an
    inverted frame range counts as a success. *)
Theorem call_on_inverted_range (run' : Z -> M W Z) (m : machine (W * list call))
    (m1 : machine W) :
  setup (lower m) = (Returned tt, m1) ->
  end_frame (this m1) < start_frame (this m1) ->
  __call__ (traced_setup setup) (traced_run run') m
  = (Returned 0,
     {| this := this m1;
        world := (world m1, (snd (world m) ++ [CalledSetup])%list);
        logged := logged m1 |}).
Proof.
  intros Hsetup Hrange. unfold __call__. unfold bind at 1.
  unfold traced_setup, traced. rewrite Hsetup.
  unfold bind, try_except, read, ret, log_error. cbn [this].
  rewrite range_empty by lia. reflexivity.
Qed.

(** A [run] that raises on the first frame ends the loop there. *)
Lemma call_first_frame_raises (run' : Z -> M W Z) (m : machine (W * list call))
    (m1 m2 : machine W) (e : exn) :
  setup (lower m) = (Returned tt, m1) ->
  start_frame (this m1) <= end_frame (this m1) ->
  run' (start_frame (this m1)) m1 = (Raised e, m2) ->
  is_exception e = true ->
  __call__ (traced_setup setup) (traced_run run') m
  = (Returned 1,
     {| this := this m2;
        world := (world m2,
                  (snd (world m)
                     ++ [CalledSetup; CalledRun (start_frame (this m1)) (Raised e)])%list);
        logged := (logged m2 ++ [RunFailed (name (this m2)) e])%list |}).
Proof.
  intros Hsetup Hrange Hrun Hcaught. unfold __call__. unfold bind at 1.
  unfold traced_setup, traced. rewrite Hsetup.
  unfold bind, try_except, read, ret, log_error. cbn [this].
  rewrite range_first by lia. cbn [for_frames]. unfold bind, traced_run, traced, lower.
  cbn [this world logged fst snd].
  replace {| this := this m1; world := world m1; logged := logged m1 |} with m1
    by now destruct m1.
  rewrite Hrun, Hcaught. cbn [this world logged]. now rewrite <- app_assoc.
Qed.

(** X5.  On a task whose class does not override [run], [__call__] over a
    frame range that is not inverted calls [run] once, on [start_frame],
    logs the [NotImplementedError] it raises and returns 1: no exception
    comes out and no other frame is tried. *)
Theorem call_without_run (m : machine (W * list call)) (m1 : machine W) :
  setup (lower m) = (Returned tt, m1) ->
  start_frame (this m1) <= end_frame (this m1) ->
  let e := NotImplementedError "run method must be overridden by child class" in
  __call__ (traced_setup setup) (traced_run run) m
  = (Returned 1,
     {| this := this m1;
        world := (world m1,
                  (snd (world m)
                     ++ [CalledSetup; CalledRun (start_frame (this m1)) (Raised e)])%list);
        logged := (logged m1 ++ [RunFailed (name (this m1)) e])%list |}).
Proof.
  intros Hsetup Hrange e.
  now apply (call_first_frame_raises run m m1 m1 e).
Qed.

End CallEdges.

(** [Task1] with the [run] that leaves by [sys.exit] on the frame 12: what
    comes out of [__call__] is that [SystemExit]. *)
Lemma call_returns_0_or_1_unless_run_exits_witness :
  exists answer m',
    __call__ (ret tt) exits_at_12 (boot Task1 tt) = (answer, m')
    /\ (answer = Returned 0
        \/ answer = Returned 1
        \/ exists e frame m0,
             answer = Raised e
             /\ is_exception e = false
             /\ start_frame (this (boot Task1 tt)) <= frame
                <= end_frame (this (boot Task1 tt))
             /\ exits_at_12 frame m0 = (Raised e, m'))
    /\ ((forall frame m0 e m0',
            exits_at_12 frame m0 = (Raised e, m0') -> is_exception e = true) ->
        answer = Returned 0 \/ answer = Returned 1).
Proof.
  apply (call_returns_0_or_1_unless_run_exits
           (ret tt) exits_at_12 (boot Task1 tt) (boot Task1 tt)).
  - intros frame m0. unfold exits_at_12. destruct (frame =? 12); discriminate.
  - reflexivity.
Defined.

(** The same call, computed: [SystemExit 3] is raised, with nothing
    logged. *)
Example call_exits_at_12 :
  __call__ (ret tt) exits_at_12 (boot Task1 tt)
  = (Raised (SystemExit 3), boot Task1 tt).
Proof. reflexivity. Qed.

(** And with the [run] that raises an [Exception] on the frame 12, the
    status is 1. *)
Example call_raises_at_12 :
  __call__ (ret tt) raises_at_12 (boot Task1 tt)
  = (Returned 1,
     {| this := Task1; world := tt;
        logged := [RunFailed "Task1" (Exception "frame 12 cannot be read")] |}).
Proof. reflexivity. Qed.

(** [Task1] over the frames 25 to 10: nothing is run. *)
Lemma call_on_inverted_range_witness :
  __call__ (traced_setup (ret tt)) (traced_run fails_at_12_and_19)
    (boot (set_end_frame 10 (set_start_frame 25 Task1)) (tt, []))
  = (Returned 0,
     {| this := set_end_frame 10 (set_start_frame 25 Task1);
        world := (tt, [CalledSetup]);
        logged := [] |}).
Proof.
  apply (call_on_inverted_range (ret tt) fails_at_12_and_19
           (boot (set_end_frame 10 (set_start_frame 25 Task1)) (tt, []))
           (boot (set_end_frame 10 (set_start_frame 25 Task1)) tt)).
  - reflexivity.
  - cbn. lia.
Defined.

(** [Task1] as a plain [SequenceTask]: frame 10 is tried, and that is all. *)
Lemma call_without_run_witness :
  let e := NotImplementedError "run method must be overridden by child class" in
  __call__ (traced_setup (ret tt)) (traced_run run) (boot Task1 (tt, []))
  = (Returned 1,
     {| this := Task1;
        world := (tt, [CalledSetup; CalledRun 10 (Raised e)]);
        logged := [RunFailed "Task1" e] |}).
Proof.
  apply (call_without_run (ret tt) (boot Task1 (tt, [])) (boot Task1 tt)).
  - reflexivity.
  - cbn. lia.
Defined.

(** ** [export_to_command_line], again and again *)

Lemma with_temp_dir_again (temp_dir' : option string) (self : SequenceTask) :
  with_temp_dir temp_dir' (with_temp_dir temp_dir' self) = with_temp_dir temp_dir' self.
Proof.
  unfold with_temp_dir.
  destruct (truthy (temp_dir self)) eqn:Hown; [now rewrite Hown |].
  cbn [temp_dir set_temp_dir]. now destruct (truthy temp_dir').
Qed.


Section CommandLineAgain.

Context {W : Type}.
Variable cls : TaskType.

(** X6.  Exporting a second time with the same arguments returns the same
    pair and leaves everything as the first export left it. *)
Theorem export_to_command_line_twice (temp_dir' : option string) (deadline : bool)
    (m : machine W) :
  export_to_command_line cls temp_dir' deadline
    (snd (export_to_command_line cls temp_dir' deadline m))
  = export_to_command_line cls temp_dir' deadline m.
Proof.
  rewrite !export_to_command_line_spec. cbn [snd this world logged].
  now rewrite with_temp_dir_again.
Qed.

(** X7.  On an instance whose [temp_dir] is set, the [temp_dir] argument
    counts for nothing: whatever it is, the export returns the same command
    and leaves the instance as it is. *)
Theorem export_to_command_line_keeps_own_temp_dir (temp_dir' other : option string)
    (deadline : bool) (m : machine W) :
  truthy (temp_dir (this m)) = true ->
  export_to_command_line cls temp_dir' deadline m
  = export_to_command_line cls other deadline m
  /\ snd (export_to_command_line cls temp_dir' deadline m) = m.
Proof.
  intros Hown. rewrite !export_to_command_line_spec. unfold with_temp_dir.
  rewrite Hown. cbn [snd]. split; [reflexivity | now destruct m].
Qed.


(** X9.  If no attribute of the class is serialized with a value other
    than [None], and none at all if the class declares none, the command is
    the executable, its arguments and the name of the class, and ends with
    a space. *)
Theorem command_line_without_attributes (temp_dir' : option string) (deadline : bool)
    (m : machine W) :
  let self := with_temp_dir temp_dir' (this m) in
  Forall (fun item => serialize (snd item) = false
                      \/ __get__ (snd item) self = VNone) (task_attributes cls) ->
  fst (export_to_command_line cls temp_dir' deadline m)
  = Returned
      (self,
       str (of_option (command_line_executable self)) ++ " "
       ++ (if truthy (command_line_executable_args self)
           then str (of_option (command_line_executable_args self)) else "")
       ++ " --task_name " ++ __name__ cls ++ " ").
Proof.
  intros self Hnone. rewrite export_to_command_line_spec. cbn [fst]. fold self.
  unfold command_of, pairs.
  replace (filter (is_exported self) (task_attributes cls)) with (@nil (string * TaskAttribute)).
  - reflexivity.
  - induction Hnone as [|item rest Hitem _ IH]; [reflexivity |].
    cbn [filter]. unfold is_exported at 1.
    destruct Hitem as [-> | ->]; cbn [andb negb is_none]; [exact IH |].
    rewrite andb_false_r. exact IH.
Qed.

(** X10.  A task without [command_line_executable] is exported all the
    same: the command it gets starts with the word [None]. *)
Theorem command_line_without_executable (temp_dir' : option string) (deadline : bool)
    (m : machine W) :
  command_line_executable (this m) = None ->
  exists self rest,
    fst (export_to_command_line cls temp_dir' deadline m)
    = Returned (self, "None " ++ rest).
Proof.
  intros Hnone. rewrite export_to_command_line_spec. cbn [fst].
  eexists. eexists. unfold command_of.
  assert (Hexe : command_line_executable (with_temp_dir temp_dir' (this m)) = None).
  { unfold with_temp_dir. now destruct (truthy (temp_dir (this m))). }
  rewrite Hexe. cbn [of_option str repr].
  reflexivity.
Qed.

End CommandLineAgain.

(** [Task1] with a [temp_dir] of its own keeps it. *)
Lemma export_to_command_line_keeps_own_temp_dir_witness :
  export_to_command_line (W := unit) TestSequence (Some "/tmp/other") false
    (boot (set_temp_dir (Some "/tmp/own") Task1) tt)
  = export_to_command_line TestSequence None false
      (boot (set_temp_dir (Some "/tmp/own") Task1) tt)
  /\ snd (export_to_command_line (W := unit) TestSequence (Some "/tmp/other") false
            (boot (set_temp_dir (Some "/tmp/own") Task1) tt))
     = boot (set_temp_dir (Some "/tmp/own") Task1) tt.
Proof.
  apply (export_to_command_line_keeps_own_temp_dir TestSequence).
  reflexivity.
Defined.

(** [Task1] as a [Quiet] task: the command stops after the class name. *)
Lemma command_line_without_attributes_witness :
  fst (export_to_command_line (W := unit) Quiet None false (boot Task1 tt))
  = Returned (Task1, "test" ++ " " ++ "" ++ " --task_name " ++ "Quiet" ++ " ").
Proof.
  apply (command_line_without_attributes Quiet None false (boot Task1 tt)).
  constructor; [now left |]. constructor; [now left |].
  constructor; [now right | constructor].
Defined.

(** [Task1] without an executable. *)
Lemma command_line_without_executable_witness :
  exists self rest,
    fst (export_to_command_line (W := unit) TestSequence None false
           (boot Task1_without_executable tt))
    = Returned (self, "None " ++ rest).
Proof.
  apply (command_line_without_executable TestSequence None false
           (boot Task1_without_executable tt)).
  reflexivity.
Defined.

(** ** [export_to_python_script] at the edges *)

Lemma ranges_from_full (n : nat) (cursor hi size : Z) :
  0 < size -> cursor <= hi -> n = chunks_left cursor hi size ->
  forall before r after,
    ranges_from n cursor hi size = (before ++ r :: after)%list ->
    after <> [] ->
    snd r - fst r + 1 = size.
Proof.
  intros Hsize. revert cursor.
  induction n as [|n IH]; intros cursor Hcursor Hn before r after Hsplit Hafter.
  - cbn in Hsplit. now destruct before.
  - destruct (Z.eq_dec cursor hi) as [-> | Hne];
      [rewrite chunks_left_done in Hn by lia; discriminate |].
    rewrite chunks_left_step in Hn by lia. injection Hn as Hn.
    cbn [ranges_from] in Hsplit. cbv zeta in Hsplit.
    destruct before as [|b before]; cbn [app] in Hsplit; inversion Hsplit; subst.
    + cbn [fst snd].
      destruct (Z_lt_ge_dec (cursor + 1 + size - 1) hi) as [Hlt | Hge]; [lia |].
      exfalso. apply Hafter.
      rewrite Z.min_r by lia. rewrite chunks_left_done by lia. reflexivity.
    + eapply IH; [| | eassumption | exact Hafter]; [lia | reflexivity].
Qed.

Lemma chunk_ranges_one (lo hi size : Z) :
  lo <= hi -> hi - lo + 1 <= size -> chunk_ranges lo hi size = [(lo, hi)].
Proof.
  intros Hrange Hfits. unfold chunk_ranges, chunk_count.
  assert (ceil_div (hi - lo + 1) size = 1) as -> by (apply ceil_div_unique; lia).
  change (Z.to_nat 1) with 1%nat. cbn [ranges_from].
  f_equal. f_equal; lia.
Qed.

Section ScriptEdges.

Context {W R : Type}.
Variable export : string -> option string -> M W R.
Variables (job_name : string) (temp_dir' : option string).

(** X11.  With a chunk size other than 0 and [end_frame] below
    [start_frame], [export_to_python_script] exports nothing: it returns the
    empty list and leaves the instance and the world untouched. *)
Theorem export_of_inverted_range (fuel : nat) (m : machine W) :
  chunk_size (this m) <> 0 ->
  end_frame (this m) < start_frame (this m) ->
  export_to_python_script export (S fuel) job_name temp_dir' m
  = (Returned (Scripts []), m).
Proof.
  intros Hsize Hrange.
  rewrite export_to_python_script_chunked by assumption.
  unfold bind at 1. cbn [write]. unfold bind at 1.
  rewrite chunk_loop_exit by (cbn; lia).
  unfold bind, write, ret. cbn [this world logged].
  destruct m as [[] w l]. reflexivity.
Qed.

(** The exports of the chunks by an export that only reads its task. *)
Lemma export_each_pure (f : SequenceTask -> R) :
  (forall m0, export job_name temp_dir' m0 = (Returned (f (this m0)), m0)) ->
  forall parent ranges tasks (m : machine W),
  exists t',
    export_each export job_name temp_dir' parent ranges tasks m
    = (Returned (tasks ++ map (fun r => f (framed parent (this m) r)) ranges)%list,
       {| this := t'; world := world m; logged := logged m |})
    /\ unframed t' = unframed (this m).
Proof.
  intros Hpure parent ranges.
  induction ranges as [|r rest IH]; intros tasks m.
  - exists (this m). cbn. rewrite app_nil_r. split; [now destruct m | reflexivity].
  - cbn [export_each]. unfold bind, write, copy, read, on. cbn [this world logged].
    rewrite Hpure. cbn [this world logged].
    match goal with |- context [export_each _ _ _ _ _ ?ts ?m2] =>
      destruct (IH ts m2) as [t' [Hrun Hrest]] end.
    exists t'. rewrite Hrun. cbn [this world logged map].
    rewrite <- app_assoc. split; reflexivity || exact Hrest.
Qed.

(** X13.  If the export of a task only reads the task, then, with a
    positive chunk size, [export_to_python_script] returns what it makes of
    each chunk, in the order of the chunks, and leaves the instance and the
    world untouched. *)
Theorem chunked_export_maps_the_chunks (f : SequenceTask -> R) (m : machine W) :
  (forall m0, export job_name temp_dir' m0 = (Returned (f (this m0)), m0)) ->
  0 < chunk_size (this m) ->
  forall fuel,
    (chunk_count (start_frame (this m)) (end_frame (this m)) (chunk_size (this m))
     < fuel)%nat ->
    export_to_python_script export fuel job_name temp_dir' m
    = (Returned
         (Scripts
            (map (fun r => f (framed (name (this m)) (this m) r))
                 (chunk_ranges (start_frame (this m)) (end_frame (this m))
                    (chunk_size (this m))))),
       m).
Proof.
  intros Hpure Hsize fuel Hfuel.
  rewrite export_to_python_script_chunked by lia.
  unfold bind at 1. cbn [write]. unfold bind at 1.
  rewrite (chunk_loop_exports_each export job_name temp_dir'
             (chunk_count (start_frame (this m)) (end_frame (this m))
                (chunk_size (this m))));
    [| exact Hsize | apply chunk_count_left | exact Hfuel].
  cbn [this set_end_frame end_frame chunk_size].
  fold (chunk_ranges (start_frame (this m)) (end_frame (this m)) (chunk_size (this m))).
  match goal with |- context [export_each _ _ _ ?p ?rs ?ts ?m0] =>
    destruct (export_each_pure f Hpure p rs ts m0) as [t' [Hrun Hrest]] end.
  rewrite Hrun. unfold bind, write, ret. cbn [this world logged app].
  cbn [this] in Hrest.
  change (unframed (set_end_frame _ (this m))) with (unframed (this m)) in Hrest.
  apply unframed_restore in Hrest. rewrite Hrest. now destruct m.
Qed.

End ScriptEdges.

(** ** The chunks, as an export sees them *)

Lemma append_cancel (a x y : string) : a ++ x = a ++ y -> x = y.
Proof.
  induction a as [|c a IH]; cbn; intros Heq; [exact Heq | apply IH; now inversion Heq].
Qed.

Lemma uint_all_digits (d : Decimal.uint) :
  all_digits (NilZero.string_of_uint d) = true /\ NilZero.string_of_uint d <> "".
Proof.
  assert (Hdigits : forall u, all_digits (NilEmpty.string_of_uint u) = true).
  { induction u; cbn [NilEmpty.string_of_uint all_digits]; try rewrite IHu; reflexivity. }
  destruct d; cbn [NilZero.string_of_uint];
    try (split; [apply Hdigits | discriminate]).
  split; [reflexivity | discriminate].
Qed.

Lemma digits_then_dash (d1 d2 x y : string) :
  all_digits d1 = true -> all_digits d2 = true ->
  d1 ++ String "-" x = d2 ++ String "-" y -> d1 = d2 /\ x = y.
Proof.
  revert d2. induction d1 as [|c d1 IH]; intros [|c2 d2] H1 H2 Heq; cbn in *.
  - now inversion Heq.
  - inversion Heq; subst. discriminate.
  - inversion Heq; subst. discriminate.
  - inversion Heq; subst.
    apply andb_true_iff in H1, H2.
    destruct (IH d2) as [-> ->]; tauto.
Qed.

Lemma int_str_then_dash (a b : Z) (x y : string) :
  int_str a ++ String "-" x = int_str b ++ String "-" y ->
  int_str a = int_str b /\ x = y.
Proof.
  unfold int_str, NilZero.string_of_int.
  destruct (Z.to_int a) as [da | da], (Z.to_int b) as [db | db];
    destruct (uint_all_digits da) as [Ha Hna], (uint_all_digits db) as [Hb Hnb];
    intros Heq.
  - now apply digits_then_dash.
  - exfalso. destruct (NilZero.string_of_uint da) as [|c s]; [contradiction |].
    cbn in Heq, Ha. inversion Heq; subst. discriminate.
  - exfalso. destruct (NilZero.string_of_uint db) as [|c s]; [contradiction |].
    cbn in Heq, Hb. inversion Heq; subst. discriminate.
  - cbn in Heq. inversion Heq as [Htail].
    destruct (digits_then_dash _ _ _ _ Ha Hb Htail) as [-> ->]. now split.
Qed.

Lemma int_str_inj (a b : Z) : int_str a = int_str b -> a = b.
Proof.
  unfold int_str. intros Heq.
  assert (Hnonnil : forall z, Z.to_int z <> Decimal.Pos Decimal.Nil
                              /\ Z.to_int z <> Decimal.Neg Decimal.Nil).
  { intros [|p|p]; cbn; split; try discriminate;
      intros Hnil; inversion Hnil as [Hp];
      exact (DecimalPos.Unsigned.to_uint_nonnil p Hp). }
  destruct (Hnonnil a) as [Ha1 Ha2], (Hnonnil b) as [Hb1 Hb2].
  pose proof (NilZero.isi _ Ha1 Ha2) as Hia.
  pose proof (NilZero.isi _ Hb1 Hb2) as Hib.
  rewrite Heq in Hia. rewrite Hia in Hib. inversion Hib as [Hint].
  rewrite <- (DecimalZ.of_to a), <- (DecimalZ.of_to b). now rewrite Hint.
Qed.

Lemma chunk_name_inj (parent : string) (lo hi lo' hi' : Z) :
  chunk_name parent lo hi = chunk_name parent lo' hi' -> lo = lo' /\ hi = hi'.
Proof.
  unfold chunk_name. intros Heq.
  apply append_cancel in Heq. apply (append_cancel "_") in Heq.
  apply int_str_then_dash in Heq. destruct Heq as [Hlo Hhi].
  split; now apply int_str_inj.
Qed.

Lemma tiles_distinct_names (parent : string) (lo hi : Z) (ranges : list (Z * Z)) :
  tiles lo ranges hi ->
  NoDup (map (fun r => chunk_name parent (fst r) (snd r)) ranges).
Proof.
  revert lo. induction ranges as [|[first last] rest IH]; intros lo; cbn [tiles map].
  - constructor.
  - intros [-> [Hle Hrest]]. constructor; [| now apply IH in Hrest].
    intros Hin. apply in_map_iff in Hin. destruct Hin as [r [Hname Hr]].
    apply chunk_name_inj in Hname. cbn [fst snd] in Hname.
    apply tiles_starts in Hrest. rewrite Forall_forall in Hrest.
    specialize (Hrest r Hr). cbn in Hrest. lia.
Qed.

Lemma chunk_ranges_cases (lo hi size : Z) :
  0 < size ->
  chunk_ranges lo hi size = [] \/ tiles lo (chunk_ranges lo hi size) hi.
Proof.
  intros Hsize. destruct (Z_le_gt_dec lo hi) as [Hrange | Hinverted].
  - right. unfold chunk_ranges.
    replace lo with (lo - 1 + 1) at 1 by lia.
    apply ranges_from_tiles; [exact Hsize | lia | apply chunk_count_left].
  - left. unfold chunk_ranges. rewrite chunk_count_left.
    now rewrite chunks_left_done by lia.
Qed.

Section ChunksSeen.

Context {W : Type}.
Variables (job_name : string) (temp_dir' : option string).

(** The export that returns its task gives back the chunks. *)
Lemma chunks_exported (fuel : nat) (m : machine W) :
  0 < chunk_size (this m) ->
  (chunk_count (start_frame (this m)) (end_frame (this m)) (chunk_size (this m))
   < fuel)%nat ->
  export_to_python_script task_itself fuel job_name temp_dir' m
  = (Returned
       (Scripts
          (map (framed (name (this m)) (this m))
               (chunk_ranges (start_frame (this m)) (end_frame (this m))
                  (chunk_size (this m))))),
     m).
Proof.
  intros Hsize Hfuel.
  rewrite export_to_python_script_chunked by lia.
  unfold bind at 1. cbn [write]. unfold bind at 1.
  rewrite (chunk_loop_exports_each task_itself job_name temp_dir'
             (chunk_count (start_frame (this m)) (end_frame (this m))
                (chunk_size (this m))));
    [| exact Hsize | apply chunk_count_left | exact Hfuel].
  cbn [this set_end_frame end_frame chunk_size].
  fold (chunk_ranges (start_frame (this m)) (end_frame (this m)) (chunk_size (this m))).
  match goal with |- context [export_each _ _ _ ?p ?rs ?ts ?m0] =>
    destruct (export_each_pure task_itself job_name temp_dir' (fun t => t)
                (fun mx => eq_refl) p rs ts m0) as [t' [Hrun Hrest]] end.
  rewrite Hrun. unfold bind, write, ret. cbn [this world logged app].
  cbn [this] in Hrest.
  change (unframed (set_end_frame _ (this m))) with (unframed (this m)) in Hrest.
  apply unframed_restore in Hrest. rewrite Hrest. now destruct m.
Qed.

(** X14.  With a positive chunk size, every chunk but the last has as
    many frames as the chunk size: only the last one may be shorter. *)
Theorem chunks_before_the_last_are_full (fuel : nat) (m : machine W) :
  0 < chunk_size (this m) ->
  (chunk_count (start_frame (this m)) (end_frame (this m)) (chunk_size (this m))
   < fuel)%nat ->
  exists chunks,
    export_to_python_script task_itself fuel job_name temp_dir' m
    = (Returned (Scripts chunks), m)
    /\ forall before c after,
         chunks = (before ++ c :: after)%list ->
         after <> [] ->
         end_frame c - start_frame c + 1 = chunk_size (this m).
Proof.
  intros Hsize Hfuel. eexists. split; [now apply chunks_exported |].
  intros before c after Hsplit Hafter.
  apply map_eq_app in Hsplit. destruct Hsplit as [rb [rest [Hranges [_ Hrest]]]].
  apply map_eq_cons in Hrest.
  destruct Hrest as [r [ra [-> [<- Hra]]]].
  cbn [framed set_name set_end_frame set_start_frame end_frame start_frame].
  destruct (Z_le_gt_dec (start_frame (this m)) (end_frame (this m))) as [Hrange | Hinv].
  - unfold chunk_ranges in Hranges.
    eapply (ranges_from_full _ _ _ _ Hsize);
      [| apply chunk_count_left | exact Hranges |]; [lia |].
    intros ->. apply Hafter. now rewrite <- Hra.
  - exfalso. unfold chunk_ranges in Hranges. rewrite chunk_count_left in Hranges.
    rewrite chunks_left_done in Hranges by lia. now destruct rb.
Qed.

(** X15.  A frame range that fits in one chunk is exported as one chunk,
    which holds the whole range and still gets the suffixed name: unlike
    with a chunk size of 0, the script is not that of the task under its
    own name. *)
Theorem range_that_fits_is_one_chunk (fuel : nat) (m : machine W) :
  start_frame (this m) <= end_frame (this m) ->
  end_frame (this m) - start_frame (this m) + 1 <= chunk_size (this m) ->
  exists chunk,
    export_to_python_script task_itself (S (S fuel)) job_name temp_dir' m
    = (Returned (Scripts [chunk]), m)
    /\ start_frame chunk = start_frame (this m)
    /\ end_frame chunk = end_frame (this m)
    /\ name chunk = name (this m) ++ "_" ++ int_str (start_frame (this m))
                      ++ "-" ++ int_str (end_frame (this m))
    /\ chunk <> this m.
Proof.
  intros Hrange Hfits. eexists. split.
  - rewrite chunks_exported; [| lia |].
    + now rewrite chunk_ranges_one by assumption.
    + unfold chunk_count.
      assert (ceil_div (end_frame (this m) - start_frame (this m) + 1)
                (chunk_size (this m)) = 1) as -> by (apply ceil_div_unique; lia).
      change (Z.to_nat 1) with 1%nat. lia.
  - repeat split. intros Heq. apply (f_equal name) in Heq.
    exact (chunk_name_longer _ _ _ Heq).
Qed.

(** X17.  With a positive chunk size, no two chunks get the same name. *)
Theorem chunk_names_are_distinct (fuel : nat) (m : machine W) :
  0 < chunk_size (this m) ->
  (chunk_count (start_frame (this m)) (end_frame (this m)) (chunk_size (this m))
   < fuel)%nat ->
  exists chunks,
    export_to_python_script task_itself fuel job_name temp_dir' m
    = (Returned (Scripts chunks), m)
    /\ NoDup (map name chunks).
Proof.
  intros Hsize Hfuel. eexists. split; [now apply chunks_exported |].
  rewrite map_map. cbn [framed name set_name].
  destruct (chunk_ranges_cases (start_frame (this m)) (end_frame (this m))
              (chunk_size (this m)) Hsize) as [-> | Htiles].
  - constructor.
  - exact (tiles_distinct_names _ _ _ _ Htiles).
Qed.

End ChunksSeen.

(** ** An export that fails, and one that cannot *)

(** In a sorted list, what comes first is below what comes later. *)
Lemma sorted_app_below {A} (R : A -> A -> Prop) (l1 l2 : list A) :
  StronglySorted R (l1 ++ l2)%list ->
  forall x y, In x l1 -> In y l2 -> R x y.
Proof.
  induction l1 as [|a l1 IH]; cbn [app]; intros Hsorted x y Hx Hy.
  - destruct Hx.
  - inversion Hsorted as [|? ? Hrest Hbelow]; subst.
    destruct Hx as [<- | Hx].
    + rewrite Forall_forall in Hbelow. apply Hbelow, in_or_app. now right.
    + now apply IH.
Qed.

(** No chunk is the narrowing of the instance to an earlier chunk. *)
Lemma tiles_later_chunks_differ (parent : string) (self : SequenceTask) (lo hi : Z)
    (before after : list (Z * Z)) (c : Z * Z) :
  tiles lo (before ++ c :: after) hi ->
  Forall (fun r => ~ In (framed parent self r)
                        (map (framed parent self) (before ++ [c])))
         after.
Proof.
  intros Htiles. apply Forall_forall. intros r Hr Hin.
  apply in_map_iff in Hin. destruct Hin as [x [Hsame Hx]].
  assert (Hstart : fst x = fst r) by exact (f_equal start_frame Hsame).
  pose proof (tiles_nonempty _ _ _ Htiles) as Hnonempty.
  rewrite Forall_forall in Hnonempty.
  assert (Hwithin : In x (before ++ c :: after)).
  { apply in_app_or in Hx. apply in_or_app.
    destruct Hx as [Hx | [<- | []]]; [now left | right; now left]. }
  specialize (Hnonempty x Hwithin). cbn beta in Hnonempty.
  apply tiles_ascending in Htiles.
  replace (before ++ c :: after)%list with ((before ++ [c]) ++ after)%list in Htiles
    by now rewrite <- app_assoc.
  pose proof (sorted_app_below _ _ _ Htiles x r Hx Hr) as Hbelow.
  cbn beta in Hbelow. lia.
Qed.

Section FailingExportSeen.

Context {W R : Type}.
Variable export : string -> option string -> M W R.
Variables (job_name : string) (temp_dir' : option string).

Lemma export_each_raises_recorded (parent : string) (before after : list (Z * Z))
    (r : Z * Z) (e : exn) (tasks : list R) (m : machine (W * list SequenceTask)) :
  (forall c m0, In c before -> this m0 = framed parent (this m) c ->
                exists x m1, export job_name temp_dir' m0 = (Returned x, m1)) ->
  (forall m0, this m0 = framed parent (this m) r ->
              exists m1, export job_name temp_dir' m0 = (Raised e, m1)) ->
  exists m',
    export_each (recording export) job_name temp_dir' parent
      (before ++ r :: after) tasks m
    = (Raised e, m')
    /\ snd (world m')
       = (snd (world m) ++ map (framed parent (this m)) (before ++ [r]))%list.
Proof.
  revert tasks m.
  induction before as [|c before IH]; intros tasks m Hbefore Hfails;
    cbn [app export_each]; unfold bind, write, copy, read, on;
    unfold recording at 1; unfold traced, lower; cbn [this world logged fst snd].
  - match goal with |- context [export job_name temp_dir' ?m0] =>
      destruct (Hfails m0 eq_refl) as [m1 Hexport] end.
    rewrite Hexport. eexists. split; reflexivity.
  - match goal with |- context [export job_name temp_dir' ?m0] =>
      destruct (Hbefore c m0 (or_introl eq_refl) eq_refl) as [x [m1 Hexport]] end.
    rewrite Hexport. cbn [this world logged].
    match goal with |- context [export_each _ _ _ _ _ ?ts ?m2] =>
      destruct (IH ts m2) as [m' [Hrun Hworld]] end.
    + intros c' m0 Hin Hm0. apply (Hbefore c' m0); [now right | exact Hm0].
    + intros m0 Hm0. apply (Hfails m0). exact Hm0.
    + exists m'. split; [exact Hrun |]. rewrite Hworld.
      cbn [this world snd map]. now rewrite <- app_assoc.
Qed.

(** X16.  Let the export return for the chunks [before] and raise for the
    chunk [lo .. hi] that follows them.  Then the export has been called on
    those chunks, in their order, and on no chunk of [after], those that
    follow the failing one: the scripts made so far stay, the remaining
    ones are never made. *)
Theorem failed_chunk_export_stops_there (self : SequenceTask) (w : W)
    (before after : list (Z * Z)) (lo hi : Z) (e : exn) :
  0 < chunk_size self ->
  chunk_ranges (start_frame self) (end_frame self) (chunk_size self)
  = (before ++ (lo, hi) :: after)%list ->
  (forall r m, In r before -> this m = framed (name self) self r ->
               exists x m', export job_name temp_dir' m = (Returned x, m')) ->
  (forall m, this m = framed (name self) self (lo, hi) ->
             exists m', export job_name temp_dir' m = (Raised e, m')) ->
  forall fuel,
    (chunk_count (start_frame self) (end_frame self) (chunk_size self) < fuel)%nat ->
    exists m',
      export_to_python_script (recording export) fuel job_name temp_dir'
        (boot self (w, []))
      = (Raised e, m')
      /\ snd (world m')
         = map (framed (name self) self) (before ++ [(lo, hi)])
      /\ Forall (fun r => ~ In (framed (name self) self r) (snd (world m'))) after.
Proof.
  intros Hsize Hranges Hbefore Hfails fuel Hfuel.
  assert (Hlater : Forall (fun r => ~ In (framed (name self) self r)
                                        (map (framed (name self) self)
                                             (before ++ [(lo, hi)])))
                          after).
  { destruct (chunk_ranges_cases (start_frame self) (end_frame self)
                (chunk_size self) Hsize) as [Hnone | Htiles].
    - rewrite Hranges in Hnone. now destruct before.
    - rewrite Hranges in Htiles.
      exact (tiles_later_chunks_differ _ _ _ _ _ _ _ Htiles). }
  rewrite export_to_python_script_chunked by (cbn; lia).
  unfold bind at 1. cbn [write boot this world logged]. unfold bind at 1.
  rewrite (chunk_loop_exports_each (recording export) job_name temp_dir'
             (chunk_count (start_frame self) (end_frame self) (chunk_size self)));
    [| exact Hsize | apply chunk_count_left | exact Hfuel].
  cbn [this set_end_frame end_frame chunk_size].
  fold (chunk_ranges (start_frame self) (end_frame self) (chunk_size self)).
  rewrite Hranges.
  match goal with |- context [export_each _ _ _ ?p _ ?ts ?m0] =>
    destruct (export_each_raises_recorded p before after (lo, hi) e ts m0)
      as [m' [Hrun Hworld]] end.
  - intros c m0 Hin Hm0. apply (Hbefore c m0 Hin). exact Hm0.
  - intros m0 Hm0. apply (Hfails m0). exact Hm0.
  - rewrite Hrun. exists m'. split; [reflexivity |].
    rewrite Hworld. split; [reflexivity | exact Hlater].
Qed.

Variable Task_validate : M W unit.

(** X18.  A task that [validate] accepts is exported, if the export of a
    task always returns: [export_to_python_script] returns, with the one
    script of the task when the chunk size is 0 and with at least one chunk
    otherwise. *)
Theorem validated_task_is_exported (m m1 : machine W) :
  Task_validate m = (Returned tt, m1) ->
  fst (validate Task_validate m) = Returned tt ->
  (forall m0, exists r m', export job_name temp_dir' m0 = (Returned r, m')) ->
  forall fuel,
    (chunk_count (start_frame (this m1)) (end_frame (this m1)) (chunk_size (this m1))
     < fuel)%nat ->
    exists x m',
      export_to_python_script export fuel job_name temp_dir' m1 = (Returned x, m')
      /\ match x with
         | Script _ => chunk_size (this m1) = 0
         | Scripts rs => 0 < chunk_size (this m1) /\ rs <> []
         end.
Proof.
  intros Hbase Hvalid Htotal fuel Hfuel.
  rewrite (validate_outcome Task_validate m m1 Hbase) in Hvalid.
  destruct (Z.ltb_spec (chunk_size (this m1)) 0) as [| Hsize]; [discriminate |].
  destruct (Z.ltb_spec (end_frame (this m1)) (start_frame (this m1))) as [| Hrange];
    [discriminate |].
  clear Hvalid.
  destruct (Z.eq_dec (chunk_size (this m1)) 0) as [Hzero | Hpositive].
  - unfold export_to_python_script. unfold bind at 1, read at 1.
    rewrite Hzero. cbn [Z.eqb]. unfold bind, ret.
    destruct (Htotal m1) as [r [m' Hexport]]. rewrite Hexport.
    exists (Script r), m'. now split.
  - rewrite export_to_python_script_chunked by assumption.
    unfold bind at 1. cbn [write]. unfold bind at 1.
    rewrite (chunk_loop_exports_each export job_name temp_dir'
               (chunk_count (start_frame (this m1)) (end_frame (this m1))
                  (chunk_size (this m1))));
      [| cbn; lia | apply chunk_count_left | exact Hfuel].
    match goal with |- context [export_each _ _ _ ?p ?rs ?ts ?m0] =>
      destruct (export_each_returns export job_name temp_dir' p rs ts m0 Htotal)
        as [rs' [m' [Hrun Hlen]]] end.
    rewrite Hrun. unfold bind, write, ret. eexists. eexists.
    split; [reflexivity |]. split; [lia |].
    intros ->. cbn [List.length this set_end_frame end_frame chunk_size] in Hlen.
    rewrite ranges_from_length in Hlen. unfold chunk_count in Hlen.
    pose proof (ceil_div_spec (end_frame (this m1) - start_frame (this m1) + 1)
                  (chunk_size (this m1)) ltac:(lia)).
    nia.
Qed.

End FailingExportSeen.

(** ** The edges, on [Task1] *)

(** [Task1] over the frames 25 to 10: no script. *)
Lemma export_of_inverted_range_witness :
  export_to_python_script (W := unit) name_of_script 1 "job" None
    (boot (set_end_frame 10 (set_start_frame 25 Task1)) tt)
  = (Returned (Scripts []), boot (set_end_frame 10 (set_start_frame 25 Task1)) tt).
Proof.
  apply (export_of_inverted_range name_of_script "job" None 0
           (boot (set_end_frame 10 (set_start_frame 25 Task1)) tt)).
  - cbn. lia.
  - cbn. lia.
Defined.

(** [Task1_negative]: a thousand turns of the loop do not end it. *)
Lemma export_negative_chunk_size_witness :
  fst (export_to_python_script (W := unit) name_of_script 1000 "job" None
         (boot Task1_negative tt))
  = Diverged.
Proof.
  apply (export_negative_chunk_size_diverges name_of_script "job" None 1000
           (boot Task1_negative tt)).
  - intros m0. eexists. eexists. reflexivity.
  - cbn. lia.
  - cbn. lia.
Defined.

(** [Task1]: the names of the scripts of its two chunks, in order. *)
Lemma chunked_export_maps_the_chunks_witness :
  export_to_python_script (W := unit) name_of_script 3 "job" None (boot Task1 tt)
  = (Returned
       (Scripts
          (map (fun r => "job" ++ "/" ++ name (framed "Task1" Task1 r))
               (chunk_ranges 10 25 8))),
     boot Task1 tt).
Proof.
  apply (chunked_export_maps_the_chunks name_of_script "job" None
           (fun t => "job" ++ "/" ++ name t) (boot Task1 tt)).
  - intros m0. reflexivity.
  - cbn. lia.
  - vm_compute. lia.
Defined.

(** [Task1]: its first chunk has 8 frames. *)
Lemma chunks_before_the_last_are_full_witness :
  exists chunks,
    export_to_python_script (W := unit) task_itself 3 "job" None (boot Task1 tt)
    = (Returned (Scripts chunks), boot Task1 tt)
    /\ forall before c after,
         chunks = (before ++ c :: after)%list ->
         after <> [] ->
         end_frame c - start_frame c + 1 = 8.
Proof.
  apply (chunks_before_the_last_are_full "job" None 3 (boot Task1 tt)).
  - cbn. lia.
  - vm_compute. lia.
Defined.

(** [Task1] cut down to the frames 10 to 12: one chunk, [Task1_10-12]. *)
Lemma range_that_fits_is_one_chunk_witness :
  exists chunk,
    export_to_python_script (W := unit) task_itself 2 "job" None
      (boot (set_end_frame 12 Task1) tt)
    = (Returned (Scripts [chunk]), boot (set_end_frame 12 Task1) tt)
    /\ start_frame chunk = 10
    /\ end_frame chunk = 12
    /\ name chunk = "Task1" ++ "_" ++ int_str 10 ++ "-" ++ int_str 12
    /\ chunk <> set_end_frame 12 Task1.
Proof.
  apply (range_that_fits_is_one_chunk "job" None 0 (boot (set_end_frame 12 Task1) tt)).
  - cbn. lia.
  - cbn. lia.
Defined.

(** [Task1]: [Task1_10-17] and [Task1_18-25] differ. *)
Lemma chunk_names_are_distinct_witness :
  exists chunks,
    export_to_python_script (W := unit) task_itself 3 "job" None (boot Task1 tt)
    = (Returned (Scripts chunks), boot Task1 tt)
    /\ NoDup (map name chunks).
Proof.
  apply (chunk_names_are_distinct "job" None 3 (boot Task1 tt)).
  - cbn. lia.
  - vm_compute. lia.
Defined.

(** [Task1] up to the frame 30, when the export of the second of its
    three chunks fails: the chunks 10-17 and 18-25 were tried, the chunk
    26-30 was not. *)
Lemma failed_chunk_export_stops_there_witness :
  exists m',
    export_to_python_script (recording full_disk_at_18) 4 "job" None
      (boot Task1_to_30 (tt, []))
    = (Raised (Exception "No space left on device"), m')
    /\ snd (world m') = map (framed "Task1" Task1_to_30) ([(10, 17)] ++ [(18, 25)])
    /\ Forall (fun r => ~ In (framed "Task1" Task1_to_30 r) (snd (world m')))
              [(26, 30)].
Proof.
  apply (failed_chunk_export_stops_there full_disk_at_18 "job" None
           Task1_to_30 tt [(10, 17)] [(26, 30)] 18 25).
  - cbn. lia.
  - reflexivity.
  - intros r m [<- | []] Hm. unfold full_disk_at_18. rewrite Hm.
    eexists. eexists. reflexivity.
  - intros m Hm. unfold full_disk_at_18. rewrite Hm.
    eexists. reflexivity.
  - vm_compute. lia.
Defined.

(** The same export, computed: the record holds the chunks 10-17 and
    18-25 and nothing else. *)
Example export_full_disk_at_18 :
  let (answer, m') :=
    export_to_python_script (recording full_disk_at_18) 4 "job" None
      (boot Task1_to_30 (tt, [])) in
  answer = Raised (Exception "No space left on device")
  /\ map (fun t => (name t, start_frame t, end_frame t)) (snd (world m'))
     = [("Task1_10-17", 10, 17); ("Task1_18-25", 18, 25)].
Proof. vm_compute. split; reflexivity. Qed.

(** [Task1], which [validate] accepts, gets its chunks. *)
Lemma validated_task_is_exported_witness :
  exists x m',
    export_to_python_script (W := unit) name_of_script 3 "job" None (boot Task1 tt)
    = (Returned x, m')
    /\ match x with
       | Script _ => 8 = 0
       | Scripts rs => 0 < 8 /\ rs <> []
       end.
Proof.
  apply (validated_task_is_exported name_of_script "job" None (ret tt)
           (boot Task1 tt) (boot Task1 tt)).
  - reflexivity.
  - reflexivity.
  - intros m0. eexists. eexists. reflexivity.
  - vm_compute. lia.
Defined.
